(** * The line highlighter and the save loop of [docs/convert_to_docx.py]

    A shallow embedding of [colorize_line], [add_colored_runs], the pattern
    table [_SH_PATTERNS], [add_code_block], [add_code_to_cell] and the final
    save loop of the script, with the properties stated about them.

    A Python [str] is a sequence of code points: a line is a [list N].
    Offsets into a line are [nat].  The regular expressions of
    [_SH_PATTERNS] are written as syntax trees and run by a backtracking
    matcher that lists the ways a pattern can match at an offset in the
    order in which Python's [re] tries them, so that the head of the list is
    the match [re] reports.

    Code that can raise gives a value or an exception.  The calls into
    python-docx and into the file system are taken as the script meets
    them: each returns or raises, as the library decides, and the model
    records what the script passes to them. *)

From Stdlib Require Import String Ascii NArith ZArith Arith Bool DecimalString List Lia.
Import ListNotations.
Open Scope bool_scope.

(** ** Characters and strings *)

Definition char := N.
Definition str := list char.

(** The code points of a string literal of the source (all of them ASCII). *)
Definition codes (s : string) : str := map N_of_ascii (list_ascii_of_string s).

(** [line[a:b]] for offsets [0 <= a], [0 <= b]. *)
Definition slice (line : str) (a b : nat) : str := firstn (b - a) (skipn a line).

(** [str.isspace] on one code point; [str.strip] and the class [\s] of [re]
    use the same set. *)
Definition isspace (c : char) : bool :=
  ((9 <=? c) && (c <=? 13) || (28 <=? c) && (c <=? 32)
   || (c =? 0x85) || (c =? 0xA0) || (c =? 0x1680)
   || (0x2000 <=? c) && (c <=? 0x200A)
   || (c =? 0x2028) || (c =? 0x2029) || (c =? 0x202F) || (c =? 0x205F)
   || (c =? 0x3000))%N.

Fixpoint lstrip (l : str) : str :=
  match l with
  | c :: l' => if isspace c then lstrip l' else l
  | [] => []
  end.

Definition rstrip (l : str) : str := rev (lstrip (rev l)).

(** [line.strip()] *)
Definition strip (l : str) : str := rstrip (lstrip l).

(** [s.startswith(c)] for a one-character prefix. *)
Definition startswith (l : str) (c : char) : bool :=
  match l with
  | x :: _ => (x =? c)%N
  | [] => false
  end.

(** ** Colours *)

Record RGBColor := mkRGB { red : N; green : N; blue : N }.

Definition CLR_DEFAULT := mkRGB 0x1E 0x1E 0x1E.
Definition CLR_IP      := mkRGB 0x00 0x6B 0xB3.
Definition CLR_MAC     := mkRGB 0xBF 0x63 0x00.
Definition CLR_GREEN   := mkRGB 0x00 0x6B 0x44.
Definition CLR_RED     := mkRGB 0xCC 0x20 0x00.
Definition CLR_PROMPT  := mkRGB 0x00 0x80 0x5A.
Definition CLR_IFACE   := mkRGB 0xAA 0x55 0x00.
Definition CLR_KEYWORD := mkRGB 0x00 0x52 0xCC.
Definition CLR_VNI     := mkRGB 0x6C 0x3F 0xB5.
Definition CLR_COMMENT := mkRGB 0x6B 0x77 0x8C.

(** ** Exceptions *)

(** What a call can raise: the one exception the save loop catches, and any
    other one, by name. *)
Inductive exn :=
| PermissionError
| OtherError (name : string).

(** Code that can raise gives a value or the exception that ended it. *)
Definition bind {A B : Type} (x : A + exn) (f : A -> B + exn) : B + exn :=
  match x with
  | inl a => f a
  | inr e => inr e
  end.

Notation "x <- a ;; b" := (bind a (fun x => b))
  (at level 61, a at next level, right associativity).
Notation "a ;;; b" := (bind a (fun _ => b))
  (at level 61, right associativity).

(** A loop whose body can raise: the results in order, or the first
    exception. *)
Fixpoint mapM {A B : Type} (f : A -> B + exn) (l : list A) : list B + exn :=
  match l with
  | [] => inl []
  | a :: l' => b <- f a ;; bs <- mapM f l' ;; inl (b :: bs)
  end.

(** ** Regular expressions: the fragment of [re] that [_SH_PATTERNS] uses *)

(** The members of a character class. *)
Inductive citem :=
| IChar (c : char)          (* a literal character *)
| IRange (lo hi : char)     (* [lo-hi] *)
| IDigit                    (* \d *)
| IWord                     (* \w *)
| ISpace                    (* \s *)
| IAny.                     (* . (no DOTALL: anything but a newline) *)

Definition cset := list citem.

Inductive regex :=
| Eps
| Chr (cs : cset)                               (* one character *)
| Rep (cs : cset) (lo : nat) (hi : option nat)  (* greedy x{lo,hi} on one character; x* x+ x? *)
| Seq (r1 r2 : regex)
| Alt (r1 r2 : regex)                           (* r1|r2, r1 tried first *)
| Times (n : nat) (r : regex)                   (* (?:r){n} *)
| Group (r : regex)                             (* the capturing group, number 1 *)
| Bol                                           (* ^ (no MULTILINE) *)
| Eol                                           (* $ (no MULTILINE) *)
| WordB.                                        (* \b *)

(** A compiled pattern: the text given to [re.compile], the expression it
    denotes and the IGNORECASE flag. *)
Record compiled :=
  re_compile { re_source : string; re_ast : regex; re_ignorecase : bool }.

(** The state of one matching attempt: the current offset and the span of
    group 1 when it has taken part. *)
Record mstate := mkState { m_pos : nat; m_grp : option (nat * nat) }.

(** A match object: [m.start(0)], [m.end(0)] and the span of group 1
    ([m.lastindex] is [None] exactly when the group took no part). *)
Record rmatch := mkMatch { m_start : nat; m_end : nat; m_group1 : option (nat * nat) }.

Definition ascii_upper (c : char) : bool := ((65 <=? c) && (c <=? 90))%N.
Definition ascii_lower (c : char) : bool := ((97 <=? c) && (c <=? 122))%N.
Definition ascii_digit (c : char) : bool := ((48 <=? c) && (c <=? 57))%N.

Definition swapcase (c : char) : char :=
  if ascii_upper c then (c + 32)%N else if ascii_lower c then (c - 32)%N else c.

(** The non-ASCII code points that IGNORECASE makes equal to an ASCII letter:
    U+0130 and U+0131 for [i], U+017F for [s], U+212A for [k]. *)
Definition fold_extra (p c : char) : bool :=
  ((((p =? 105) || (p =? 73)) && ((c =? 0x130) || (c =? 0x131)))
   || (((p =? 115) || (p =? 83)) && (c =? 0x17F))
   || (((p =? 107) || (p =? 75)) && (c =? 0x212A)))%N.

Fixpoint run_length (f : char -> bool) (l : str) (cap : option nat) : nat :=
  match l with
  | [] => 0
  | c :: l' =>
      match cap with
      | Some 0 => 0
      | _ => if f c then S (run_length f l' (option_map pred cap)) else 0
      end
  end.

(** [n, n-1, ..., lo]; empty when [n < lo]. *)
Definition countdown (n lo : nat) : list nat := rev (seq lo (S n - lo)).

Section Highlighter.

(** The Unicode tables of the interpreter beyond ASCII: which code points
    are decimal digits and which are alphanumeric.  Every statement below
    holds for all tables. *)
Variable unicode_isdecimal : char -> bool.
Variable unicode_isalnum : char -> bool.

Definition isdecimal (c : char) : bool :=
  if (c <? 128)%N then ascii_digit c else unicode_isdecimal c.

Definition isword (c : char) : bool :=
  if (c <? 128)%N
  then ascii_digit c || ascii_upper c || ascii_lower c || (c =? 95)%N
  else unicode_isalnum c.

Definition item_match (ic : bool) (c : char) (i : citem) : bool :=
  match i with
  | IChar p =>
      (c =? p)%N || (ic && ((c =? swapcase p)%N || fold_extra p c))
  | IRange lo hi =>
      ((lo <=? c) && (c <=? hi))%N
      || (ic && ((lo <=? swapcase c) && (swapcase c <=? hi))%N)
  | IDigit => isdecimal c
  | IWord => isword c
  | ISpace => isspace c
  | IAny => negb (c =? 10)%N
  end.

Definition class_match (ic : bool) (cs : cset) (c : char) : bool :=
  existsb (item_match ic c) cs.

(** [\b] at offset [p]: exactly one of the characters before and after the
    offset is a word character (the ends of the line count as non-word). *)
Definition word_at (line : str) (p : nat) : bool :=
  match nth_error line p with
  | Some c => isword c
  | None => false
  end.

Definition at_boundary (line : str) (p : nat) : bool :=
  xorb (match p with 0 => false | S q => word_at line q end) (word_at line p).

(** [$]: at the end of the line, or just before a final newline. *)
Definition at_eol (line : str) (p : nat) : bool :=
  (p =? length line)
  || ((S p =? length line) && match nth_error line p with
                              | Some c => (c =? 10)%N
                              | None => false
                              end).

(** All the ways [r] matches from state [st], in the order [re] tries them. *)
Fixpoint run (ic : bool) (line : str) (r : regex) (st : mstate) : list mstate :=
  match r with
  | Eps => [st]
  | Chr cs =>
      match nth_error line (m_pos st) with
      | Some c =>
          if class_match ic cs c then [mkState (S (m_pos st)) (m_grp st)] else []
      | None => []
      end
  | Rep cs lo hi =>
      let n := run_length (class_match ic cs) (skipn (m_pos st) line) hi in
      map (fun k => mkState (m_pos st + k) (m_grp st)) (countdown n lo)
  | Seq r1 r2 => flat_map (run ic line r2) (run ic line r1 st)
  | Alt r1 r2 => run ic line r1 st ++ run ic line r2 st
  | Times n r1 =>
      (fix times (k : nat) (s : mstate) : list mstate :=
         match k with
         | 0 => [s]
         | S k' => flat_map (times k') (run ic line r1 s)
         end) n st
  | Group r1 =>
      map (fun s => mkState (m_pos s) (Some (m_pos st, m_pos s)))
          (run ic line r1 st)
  | Bol => if m_pos st =? 0 then [st] else []
  | Eol => if at_eol line (m_pos st) then [st] else []
  | WordB => if at_boundary line (m_pos st) then [st] else []
  end.

(** One attempt at offset [p].  With [must_advance] (set after an empty
    match) an empty match at [p] is refused and the next alternative taken. *)
Definition match_at (c : compiled) (line : str) (must_advance : bool) (p : nat)
  : option rmatch :=
  let results := run (re_ignorecase c) line (re_ast c) (mkState p None) in
  let ok s := negb (must_advance && (m_pos s =? p)) in
  match find ok results with
  | Some s => Some (mkMatch p (m_pos s) (m_grp s))
  | None => None
  end.

(** The scanner behind [pattern.finditer(line)]: the start offsets are tried
    from left to right; offsets inside the previous match are skipped
    ([next] is where the previous match ended); after an empty match the
    same offset is tried once more for a match that advances. *)
Fixpoint scan (c : compiled) (line : str) (offsets : list nat) (next : nat)
  : list rmatch :=
  match offsets with
  | [] => []
  | p :: rest =>
      if p <? next then scan c line rest next
      else
        match match_at c line false p with
        | None => scan c line rest next
        | Some m =>
            if m_end m =? p then
              match match_at c line true p with
              | Some m' => m :: m' :: scan c line rest (m_end m')
              | None => m :: scan c line rest next
              end
            else m :: scan c line rest (m_end m)
        end
  end.

Definition finditer (c : compiled) (line : str) : list rmatch :=
  scan c line (seq 0 (S (length line))) 0.


(** ** The pattern table *)

Definition chr_of (a : ascii) : char := N_of_ascii a.

(** The literal characters of a class, as in [[@$]]. *)
Definition set_of (s : string) : cset := map IChar (codes s).

(** A literal word of a pattern. *)
Definition lit (s : string) : regex :=
  fold_right (fun c r => Seq (Chr [IChar c]) r) Eps (codes s).

(** The parts of a pattern one after the other, and its alternatives from
    left to right. *)
Definition seqs (rs : list regex) : regex := fold_right Seq Eps rs.

Fixpoint alts (rs : list regex) : regex :=
  match rs with
  | [] => Chr []
  | [r] => r
  | r :: rs' => Alt r (alts rs')
  end.

Definition opt (r : regex) : regex := Alt r Eps.
Definition star (cs : cset) : regex := Rep cs 0 None.
Definition plus (cs : cset) : regex := Rep cs 1 None.
Definition maybe (cs : cset) : regex := Rep cs 0 (Some 1).
Definition between (cs : cset) (lo hi : nat) : regex := Rep cs lo (Some hi).

Definition hex : cset :=
  [IRange (chr_of "0") (chr_of "9"); IRange (chr_of "a") (chr_of "f");
   IRange (chr_of "A") (chr_of "F")].

(** Comments (# lines): the first pattern of the table. *)
Definition re_comment : regex :=
  seqs [Bol; Group (seqs [star [ISpace]; lit "#"; star [IAny]]); Eol].

(** Prompts: sw1#, sw2#, cumulus@..., admin@...; the group spans the whole
    pattern, the optional blank after the prompt included. *)
Definition re_prompt : regex :=
  Group (seqs [alts [seqs [lit "sw"; plus [IDigit]; lit "#"];
                     seqs [lit "cumulus"; Chr (set_of "@$");
                           star (IWord :: set_of ":~"); maybe (set_of "$#>")];
                     seqs [lit "admin@"; plus (IWord :: set_of "-");
                           star (set_of "-cli>"); maybe (set_of ">")]];
               maybe [ISpace]]).

(** IP addresses with optional /mask, between word boundaries. *)
Definition re_ip : regex :=
  seqs [WordB;
        Group (seqs [between [IDigit] 1 3; lit "."; between [IDigit] 1 3; lit ".";
                     between [IDigit] 1 3; lit "."; between [IDigit] 1 3;
                     opt (seqs [lit "/"; between [IDigit] 1 2])]);
        WordB].

(** MAC addresses, colon format (aa:bb:cc:00:24:00). *)
Definition re_mac_colon : regex :=
  seqs [WordB;
        Group (seqs [between hex 2 2; Times 5 (seqs [lit ":"; between hex 2 2])]);
        WordB].

(** MAC addresses, dot format (aabb.cc00.2400). *)
Definition re_mac_dot : regex :=
  seqs [WordB;
        Group (seqs [between hex 4 4; lit "."; between hex 4 4; lit ".";
                     between hex 4 4]);
        WordB].

(** Status positive (compiled with IGNORECASE). *)
Definition re_status_pos : regex :=
  seqs [WordB;
        Group (alts (map lit ["UP"; "FULL"; "Established"; "estab"; "FIXED";
                              "forwarding"]%string));
        WordB].

(** Status negative (compiled with IGNORECASE). *)
Definition re_status_neg : regex :=
  seqs [WordB;
        Group (alts (map lit ["DOWN"; "FAIL"; "ERROR"; "DROPPED"; "failed";
                              "blocked"]%string));
        WordB].

(** VNI numbers: four literal alternatives. *)
Definition re_vni : regex :=
  seqs [WordB;
        Group (alts (map lit ["401151"; "401152"; "401153"; "50101"]%string));
        WordB].

(** Interface names: a name from the list, one digit, then word characters,
    slashes, dots and hyphens. *)
Definition re_iface : regex :=
  seqs [WordB;
        Group (seqs [alts [seqs [lit "Gi"; opt (lit "gabitEthernet")];
                           lit "GigabitEthernet"; lit "Te"; lit "nve";
                           lit "Loopback"; lit "Vlan"; lit "swp"; lit "vxlan";
                           lit "br_default"; lit "vlan"];
                     Chr [IDigit]; star (IWord :: set_of "/.-")]);
        WordB].

(** Versa interface names. *)
Definition re_versa_iface : regex :=
  seqs [WordB;
        Group (seqs [alts [lit "tvi"; lit "vni"; lit "dtvi"]; lit "-";
                     Chr [IDigit]; star (IWord :: set_of "/.-")]);
        WordB].

(** Config keywords at the start of the line; the group leaves the leading
    blanks out. *)
Definition re_keyword : regex :=
  seqs [Bol; star [ISpace];
        Group (alts [seqs [lit "router"; plus [ISpace];
                           alts [lit "ospf"; lit "bgp"]];
                     lit "interface"; lit "neighbor"; lit "address-family";
                     lit "l2vpn";
                     seqs [lit "vlan"; plus [ISpace]; lit "configuration"];
                     lit "member";
                     seqs [lit "nv"; plus [ISpace]; lit "set"]]);
        WordB].

(** Versa config keywords. *)
Definition re_versa_keyword : regex :=
  seqs [Bol; star [ISpace];
        Group (alts [seqs [lit "set"; plus [ISpace]; lit "routing-instances"];
                     lit "protocols"; lit "bridge-domains"; lit "bridge-options";
                     lit "policy-options"]);
        WordB].

(** A row of the table: [(pattern, color, bold)]. *)
Definition pattern := (compiled * RGBColor * bool)%type.

(** The table, in the order of the source; each row keeps the text that the
    source compiles next to the expression it denotes. *)
Definition _SH_PATTERNS : list pattern :=
  [ (re_compile "^(\s*#.*)$"
       re_comment false, CLR_COMMENT, false);
    (re_compile "((?:sw\d+#|cumulus[@$][\w:~]*[$#>]?|admin@[\w\-]+[-cli>]*>?)\s?)"
       re_prompt false, CLR_PROMPT, true);
    (re_compile "\b(\d{1,3}\.\d{1,3}\.\d{1,3}\.\d{1,3}(?:/\d{1,2})?)\b"
       re_ip false, CLR_IP, false);
    (re_compile "\b([0-9a-fA-F]{2}(?::[0-9a-fA-F]{2}){5})\b"
       re_mac_colon false, CLR_MAC, false);
    (re_compile "\b([0-9a-fA-F]{4}\.[0-9a-fA-F]{4}\.[0-9a-fA-F]{4})\b"
       re_mac_dot false, CLR_MAC, false);
    (re_compile "\b(UP|FULL|Established|estab|FIXED|forwarding)\b"
       re_status_pos true, CLR_GREEN, true);
    (re_compile "\b(DOWN|FAIL|ERROR|DROPPED|failed|blocked)\b"
       re_status_neg true, CLR_RED, true);
    (re_compile "\b(401151|401152|401153|50101)\b"
       re_vni false, CLR_VNI, false);
    (re_compile "\b((?:Gi(?:gabitEthernet)?|GigabitEthernet|Te|nve|Loopback|Vlan|swp|vxlan|br_default|vlan)\d[\w/.\-]*)\b"
       re_iface false, CLR_IFACE, false);
    (re_compile "\b((?:tvi|vni|dtvi)-\d[\w/.\-]*)\b"
       re_versa_iface false, CLR_IFACE, false);
    (re_compile "^\s*(router\s+(?:ospf|bgp)|interface|neighbor|address-family|l2vpn|vlan\s+configuration|member|nv\s+set)\b"
       re_keyword false, CLR_KEYWORD, true);
    (re_compile "^\s*(set\s+routing-instances|protocols|bridge-domains|bridge-options|policy-options)\b"
       re_versa_keyword false, CLR_KEYWORD, true) ].

(** ** [colorize_line] *)

(** A candidate span [(start, end, color, bold)] and a segment
    [(text, color, bold)]. *)
Definition cand := (nat * nat * RGBColor * bool)%type.
Definition segment := (str * RGBColor * bool)%type.

Definition cand_start (c : cand) : nat := fst (fst (fst c)).
Definition cand_end (c : cand) : nat := snd (fst (fst c)).
Definition seg_text (s : segment) : str := fst (fst s).

(** The span a match contributes: that of group 1 when [m.lastindex] is set,
    that of the whole match otherwise. *)
Definition span_of (m : rmatch) : nat * nat :=
  match m_group1 m with
  | Some (s, e) => (s, e)
  | None => (m_start m, m_end m)
  end.

Definition cand_of (color : RGBColor) (bold : bool) (m : rmatch) : cand :=
  (fst (span_of m), snd (span_of m), color, bold).

(** The inner loop: the candidates of one pattern. *)
Definition pattern_matches (line : str) (p : pattern) : list cand :=
  let '(re, color, bold) := p in map (cand_of color bold) (finditer re line).

(** The outer loop: [matches] once every pattern has been run. *)
Definition collect_matches (patterns : list pattern) (line : str) : list cand :=
  flat_map (pattern_matches line) patterns.

(** [matches.sort(key=lambda x: x[0])]: a stable sort on the start offset. *)
Fixpoint insert_by_start (x : cand) (l : list cand) : list cand :=
  match l with
  | [] => [x]
  | y :: l' =>
      if cand_start x <=? cand_start y then x :: l
      else y :: insert_by_start x l'
  end.

Definition sort_by_start (l : list cand) : list cand :=
  fold_right insert_by_start [] l.

(** The overlap filter, with its running [last_end]. *)
Fixpoint remove_overlaps (matches : list cand) (last_end : nat) : list cand :=
  match matches with
  | [] => []
  | c :: rest =>
      if last_end <=? cand_start c
      then c :: remove_overlaps rest (cand_end c)
      else remove_overlaps rest last_end
  end.

(** The segment builder, with its running [pos]. *)
Fixpoint build_segments (line : str) (filtered : list cand) (pos : nat)
  : list segment :=
  match filtered with
  | [] =>
      if pos <? length line then [(skipn pos line, CLR_DEFAULT, false)] else []
  | (s, e, color, bold) :: rest =>
      (if pos <? s then [(slice line pos s, CLR_DEFAULT, false)] else [])
      ++ (slice line s e, color, bold) :: build_segments line rest e
  end.

Definition is_comment_line (line : str) : bool :=
  startswith (strip line) (chr_of "#") || startswith (strip line) (chr_of "!").

(** [colorize_line] over a pattern table. *)
Definition colorize_with (patterns : list pattern) (line : str) : list segment :=
  if is_comment_line line then [(line, CLR_COMMENT, false)]
  else
    let matches := sort_by_start (collect_matches patterns line) in
    let filtered := remove_overlaps matches 0 in
    let segments := build_segments line filtered 0 in
    match segments with
    | [] => [(line, CLR_DEFAULT, false)]
    | _ => segments
    end.

(** [colorize_line(line)]: the table is the global [_SH_PATTERNS]. *)
Definition colorize_line (line : str) : list segment :=
  colorize_with _SH_PATTERNS line.

(** ** [colorize_line], with the match objects of [re]

    The same function once more, written with what Python gives at each
    step: [m.group(g)], [m.start(g)] and [m.end(g)] raise IndexError for a
    group that the pattern does not have and give [None] or [-1] for a group
    that took no part in the match; offsets are Python integers, and a slice
    counts a negative one from the end of the line. *)

(** [pattern.groups > 0]: the expression has the capturing group. *)
Fixpoint has_group (r : regex) : bool :=
  match r with
  | Group _ => true
  | Seq r1 r2 | Alt r1 r2 => has_group r1 || has_group r2
  | Times _ r1 => has_group r1
  | Eps | Chr _ | Rep _ _ _ | Bol | Eol | WordB => false
  end.

Definition IndexError : exn := OtherError "IndexError".

(** [m.lastindex], and its truth value in an [if]. *)
Definition m_lastindex (m : rmatch) : option nat :=
  match m_group1 m with
  | Some _ => Some 1
  | None => None
  end.

Definition truthy (v : option nat) : bool :=
  match v with
  | Some (S _) => true
  | _ => false
  end.

(** [m.span(g)]: IndexError when the pattern has no group [g]; [(-1, -1)]
    when group 1 took no part in the match. *)
Definition match_span (re : compiled) (m : rmatch) (g : nat) : (Z * Z) + exn :=
  match g with
  | 0 => inl (Z.of_nat (m_start m), Z.of_nat (m_end m))
  | 1 =>
      if has_group (re_ast re) then
        inl (match m_group1 m with
             | Some (s, e) => (Z.of_nat s, Z.of_nat e)
             | None => (-1, -1)%Z
             end)
      else inr IndexError
  | _ => inr IndexError
  end.

(** [m.start(g)], [m.end(g)] and [m.group(g)]. *)
Definition match_start (re : compiled) (m : rmatch) (g : nat) : Z + exn :=
  sp <- match_span re m g ;; inl (fst sp).

Definition match_end (re : compiled) (m : rmatch) (g : nat) : Z + exn :=
  sp <- match_span re m g ;; inl (snd sp).

Definition match_group (re : compiled) (line : str) (m : rmatch) (g : nat)
  : option str + exn :=
  sp <- match_span re m g ;;
  inl (if (fst sp <? 0)%Z then None
       else Some (slice line (Z.to_nat (fst sp)) (Z.to_nat (snd sp)))).

(** A candidate span with Python integers. *)
Definition pycand := (Z * Z * RGBColor * bool)%type.

Definition pycand_start (c : pycand) : Z := fst (fst (fst c)).

(** The body of the inner loop: the three conditional expressions, then the
    tuple that is appended. *)
Definition match_candidate (re : compiled) (color : RGBColor) (bold : bool)
    (line : str) (m : rmatch) : pycand + exn :=
  g <- (if truthy (m_lastindex m) then match_group re line m 1
        else match_group re line m 0) ;;
  s <- (if truthy (m_lastindex m) then match_start re m 1
        else match_start re m 0) ;;
  e <- (if truthy (m_lastindex m) then match_end re m 1
        else match_end re m 0) ;;
  inl (s, e, color, bold).

(** The two nested loops. *)
Definition pattern_matches_py (line : str) (p : pattern) : list pycand + exn :=
  let '(re, color, bold) := p in
  mapM (match_candidate re color bold line) (finditer re line).

Definition collect_matches_py (patterns : list pattern) (line : str)
  : list pycand + exn :=
  per_pattern <- mapM (pattern_matches_py line) patterns ;;
  inl (concat per_pattern).

(** The stable sort, the filter and the builder on Python integers. *)
Fixpoint insert_py (x : pycand) (l : list pycand) : list pycand :=
  match l with
  | [] => [x]
  | y :: l' =>
      if (pycand_start x <=? pycand_start y)%Z then x :: l
      else y :: insert_py x l'
  end.

Definition sort_py (l : list pycand) : list pycand := fold_right insert_py [] l.

Fixpoint remove_overlaps_py (matches : list pycand) (last_end : Z) : list pycand :=
  match matches with
  | [] => []
  | (s, e, color, bold) :: rest =>
      if (last_end <=? s)%Z
      then (s, e, color, bold) :: remove_overlaps_py rest e
      else remove_overlaps_py rest last_end
  end.

(** A bound of a slice of a sequence of length [n]: a negative bound counts
    from the end, and every bound is brought back into [0 .. n]. *)
Definition slice_bound (n : nat) (i : Z) : nat :=
  if (i <? 0)%Z then Z.to_nat (Z.max 0 (i + Z.of_nat n))
  else Nat.min (Z.to_nat i) n.

(** [line[a:b]] and [line[a:]] *)
Definition slice_py (line : str) (a b : Z) : str :=
  slice line (slice_bound (length line) a) (slice_bound (length line) b).

Definition slice_from_py (line : str) (a : Z) : str :=
  skipn (slice_bound (length line) a) line.

Fixpoint build_segments_py (line : str) (filtered : list pycand) (pos : Z)
  : list segment :=
  match filtered with
  | [] =>
      if (pos <? Z.of_nat (length line))%Z
      then [(slice_from_py line pos, CLR_DEFAULT, false)] else []
  | (s, e, color, bold) :: rest =>
      (if (pos <? s)%Z then [(slice_py line pos s, CLR_DEFAULT, false)] else [])
      ++ (slice_py line s e, color, bold) :: build_segments_py line rest e
  end.

Definition colorize_with_py (patterns : list pattern) (line : str)
  : list segment + exn :=
  if is_comment_line line then inl [(line, CLR_COMMENT, false)]
  else
    matches <- collect_matches_py patterns line ;;
    let filtered := remove_overlaps_py (sort_py matches) 0 in
    let segments := build_segments_py line filtered 0 in
    inl (match segments with
         | [] => [(line, CLR_DEFAULT, false)]
         | _ => segments
         end).

Definition colorize_line_py (line : str) : list segment + exn :=
  colorize_with_py _SH_PATTERNS line.

(** ** [add_colored_runs] *)

(** The model follows the script up to its calls into python-docx and
    records what it passes to them; what the library makes of the values is
    the library's own business (it keeps a carriage return or a newline of
    a run text as a line break, and a font size in whole half-points), and
    so is whether a call returns: [add_run] raises ValueError on a text
    that XML cannot hold, for one.  No exception of these calls is caught
    anywhere in the script, so a call that raises ends the function that
    made it, and the script. *)

(** The calls of [add_colored_runs] into the library. *)
Inductive docx_call :=
| AddRun (text : str)               (* paragraph.add_run(text) *)
| SetFontName (name : string)       (* run.font.name = name *)
| SetFontSize (size : N)            (* run.font.size = size *)
| SetFontColor (color : RGBColor)   (* run.font.color.rgb = color *)
| SetBold.                          (* run.bold = True *)

(** The library as the script meets it: a call returns ([None]) or
    raises. *)
Variable docx_raises : docx_call -> option exn.

Definition docx (c : docx_call) : unit + exn :=
  match docx_raises c with
  | None => inl tt
  | Some e => inr e
  end.

(** One turn of the loop of [add_colored_runs], once all its calls have
    returned: the text passed to [add_run], the values assigned to
    [run.font.name], [run.font.size] (in EMU, the unit of [Pt]) and
    [run.font.color.rgb], and whether [run.bold] was set. *)
Record docx_run := mkRun {
  run_text : str;
  run_font_name : string;
  run_font_size : N;
  run_color : RGBColor;
  run_bold : bool
}.

(** The runs that the script has added to a paragraph. *)
Definition paragraph := list docx_run.

Definition NBSP : char := 0xA0%N.

(** [line if line.strip() else '\u00a0'] *)
Definition display_line (line : str) : str :=
  match strip line with
  | [] => [NBSP]
  | _ => line
  end.

(** [segments = colorize_line(display_line)] *)
Definition display_segments (line : str) : list segment :=
  colorize_line (display_line line).

(** The body of the loop. *)
Definition add_colored_run (font_name : string) (font_size : N)
    (p : paragraph) (seg : segment) : paragraph + exn :=
  let '(text, color, bold) := seg in
  docx (AddRun text) ;;;
  docx (SetFontName font_name) ;;;
  docx (SetFontSize font_size) ;;;
  docx (SetFontColor color) ;;;
  (if bold then docx SetBold else inl tt) ;;;
  inl (p ++ [mkRun text font_name font_size color bold]).

Fixpoint add_runs (font_name : string) (font_size : N)
    (segments : list segment) (p : paragraph) : paragraph + exn :=
  match segments with
  | [] => inl p
  | seg :: rest =>
      p' <- add_colored_run font_name font_size p seg ;;
      add_runs font_name font_size rest p'
  end.

(** [add_colored_runs(paragraph, line, font_name, font_size)]: the paragraph
    with the new runs appended, or the exception of the first call that
    raised. *)
Definition add_colored_runs (p : paragraph) (line : str)
    (font_name : string) (font_size : N) : paragraph + exn :=
  add_runs font_name font_size (display_segments line) p.

(** The calls that [add_colored_runs] makes for a segment and for a line
    when none of them raises, in order, and the run that a segment leaves. *)
Definition segment_calls (font_name : string) (font_size : N) (seg : segment)
  : list docx_call :=
  let '(text, color, bold) := seg in
  [AddRun text; SetFontName font_name; SetFontSize font_size; SetFontColor color]
  ++ (if bold then [SetBold] else []).

Definition line_calls (font_name : string) (font_size : N) (line : str)
  : list docx_call :=
  flat_map (segment_calls font_name font_size) (display_segments line).

Definition segment_run (font_name : string) (font_size : N) (seg : segment)
  : docx_run :=
  let '(text, color, bold) := seg in mkRun text font_name font_size color bold.

(** The exception of the first call of a sequence that raises. *)
Fixpoint first_raise (calls : list docx_call) : option exn :=
  match calls with
  | [] => None
  | c :: rest =>
      match docx_raises c with
      | Some e => Some e
      | None => first_raise rest
      end
  end.

End Highlighter.

(** ** The save loop at the end of the script *)

(** What the script does to the outside world, in order. *)
Inductive event :=
| Save (path : string)      (* a call doc.save(path), whatever its result *)
| Print (text : string).    (* a line on standard output *)

(** The state threaded through the tail of the script: the binding of
    [output_path] and the events so far. *)
Record tail_state := mkTail { output_path : option string; trace : list event }.

(** The result of running a piece of the script: the state it leaves and
    the exception that ended it, if any. *)
Definition result := (tail_state * option exn)%type.

(** [f'{n:,}'] *)
Fixpoint group3 (rev_digits : list ascii) (k : nat) : list ascii :=
  match rev_digits with
  | [] => []
  | d :: rest =>
      match k, rest with
      | 2, _ :: _ => d :: ","%char :: group3 rest 0
      | _, _ => d :: group3 rest (S k)
      end
  end.

Definition format_thousands (n : N) : string :=
  string_of_list_ascii
    (rev (group3 (rev (list_ascii_of_string
                         (DecimalString.NilZero.string_of_uint (N.to_uint n)))) 0)).

Section SaveLoop.

(** [base_name], the value of [os.path.join(os.path.dirname(__file__), ...)]. *)
Variable base_name : string.

(** The file system as the script meets it: [doc.save(path)] returns
    ([None]) or raises; [os.path.getsize(path)] gives a size or raises. *)
Variable doc_save : string -> option exn.
Variable getsize : string -> N + exn.

Definition suffixes : list string := ["_v3"; "_v3a"; "_v3b"]%string.

Definition path_of (suffix : string) : string :=
  (base_name ++ suffix ++ ".docx")%string.

(** The [for] loop with its [try] / [except PermissionError]. *)
Fixpoint save_loop (todo : list string) (st : tail_state) : result :=
  match todo with
  | [] => (st, None)
  | suffix :: rest =>
      let path := path_of suffix in
      let st' := mkTail (Some path) (trace st ++ [Save path]) in
      match doc_save path with
      | None => (st', None)                              (* break *)
      | Some PermissionError => save_loop rest st'       (* continue *)
      | Some e => (st', Some e)                          (* not caught *)
      end
  end.

(** The two [print] calls after the loop. *)
Definition report (st : tail_state) : result :=
  match output_path st with
  | None => (st, Some (OtherError "NameError"))
  | Some path =>
      let st1 :=
        mkTail (output_path st)
               (trace st ++ [Print ("Word document saved: " ++ path)%string]) in
      match getsize path with
      | inr e => (st1, Some e)
      | inl n =>
          (mkTail (output_path st)
                  (trace st1 ++ [Print ("Size: " ++ format_thousands n
                                                 ++ " bytes")%string]),
           None)
      end
  end.

(** The tail of the script, from the loop to the end. *)
Definition save_and_report : result :=
  match save_loop suffixes (mkTail None []) with
  | (st, None) => report st
  | (st, Some e) => (st, Some e)
  end.

End SaveLoop.

(** ** Vocabulary of the statements *)

(** Every match of [r] takes at least one character. *)
Fixpoint consumes (r : regex) : bool :=
  match r with
  | Chr _ => true
  | Rep _ lo _ => 0 <? lo
  | Seq r1 r2 => consumes r1 || consumes r2
  | Alt r1 r2 => consumes r1 && consumes r2
  | Times n r1 => (0 <? n) && consumes r1
  | Group r1 => consumes r1
  | Eps | Bol | Eol | WordB => false
  end.

(** The body of every capturing group takes at least one character. *)
Fixpoint groups_consume (r : regex) : bool :=
  match r with
  | Seq r1 r2 | Alt r1 r2 => groups_consume r1 && groups_consume r2
  | Times _ r1 => groups_consume r1
  | Group r1 => consumes r1 && groups_consume r1
  | Eps | Chr _ | Rep _ _ _ | Bol | Eol | WordB => true
  end.

Definition well_formed (p : pattern) : bool :=
  consumes (re_ast (fst (fst p))) && groups_consume (re_ast (fst (fst p))).

(** The span of group 1 carried by a state is non-empty and behind the
    current offset. *)
Definition grp_ok (st : mstate) : Prop :=
  match m_grp st with
  | Some (a, b) => a < b /\ b <= m_pos st
  | None => True
  end.

(** A match lies in the line, and so does a non-empty group span. *)
Definition match_ok (line : str) (m : rmatch) : Prop :=
  m_start m < m_end m /\ m_end m <= length line /\
  match m_group1 m with
  | Some (a, b) => a < b /\ b <= m_end m
  | None => True
  end.

(** A candidate is a non-empty span of the line. *)
Definition cand_ok (line : str) (c : cand) : Prop :=
  cand_start c < cand_end c /\ cand_end c <= length line.

(** [bounds] cuts the range from [a] to [b] into consecutive non-empty
    half-open pieces: the first starts at [a], each one starts where the
    previous one ends, the last ends at [b]. *)
Fixpoint tiling (a : nat) (bounds : list (nat * nat)) (b : nat) : Prop :=
  match bounds with
  | [] => a = b
  | (s, e) :: rest => s = a /\ s < e /\ tiling e rest b
  end.

(** The offsets at which [build_segments] cuts the line. *)
Fixpoint segment_bounds (len : nat) (filtered : list cand) (pos : nat)
  : list (nat * nat) :=
  match filtered with
  | [] => if pos <? len then [(pos, len)] else []
  | c :: rest =>
      (if pos <? cand_start c then [(pos, cand_start c)] else [])
      ++ (cand_start c, cand_end c) :: segment_bounds len rest (cand_end c)
  end.

(** Each span starts at or after the end of the one before it, the first at
    or after [last]. *)
Fixpoint chained (last : nat) (l : list cand) : Prop :=
  match l with
  | [] => True
  | c :: rest => last <= cand_start c /\ chained (cand_end c) rest
  end.

(** [l] is in ascending order of start offset. *)
Fixpoint sorted_by_start (l : list cand) : Prop :=
  match l with
  | [] => True
  | c :: rest =>
      Forall (fun d => cand_start c <= cand_start d) rest /\ sorted_by_start rest
  end.

(** [last_end] once the overlap filter has gone through [l]. *)
Fixpoint last_end_after (l : list cand) (last : nat) : nat :=
  match l with
  | [] => last
  | c :: rest =>
      last_end_after rest (if last <=? cand_start c then cand_end c else last)
  end.

(** Two candidate spans share at least one offset. *)
Definition overlap (a b : cand) : Prop :=
  cand_start a < cand_end b /\ cand_start b < cand_end a.

(** ** The matcher stays inside the line *)

(** An assertion ([^], [$], [\b]) yields the state unchanged or nothing. *)
Ltac guard_inv H :=
  simpl in H;
  match type of H with
  | In _ (if ?c then _ else _) =>
      destruct c; [destruct H as [<-|[]]|destruct H]
  end.

Section MatcherFacts.

Variable unicode_isdecimal : char -> bool.
Variable unicode_isalnum : char -> bool.
Variable ic : bool.
Variable line : str.

Local Abbreviation run' := (run unicode_isdecimal unicode_isalnum ic line).

Lemma run_times_succ (n : nat) (r : regex) (st : mstate) :
  run' (Times (S n) r) st = flat_map (run' (Times n r)) (run' r st).
Proof. reflexivity. Qed.

Lemma run_length_le (f : char -> bool) (l : str) (cap : option nat) :
  run_length f l cap <= length l.
Proof.
  revert cap; induction l as [|c l IH]; intros cap; simpl; [lia|].
  destruct cap as [[|k]|]; try lia;
    destruct (f c); simpl; try lia;
    match goal with |- S (run_length _ _ ?c') <= _ => specialize (IH c'); lia end.
Qed.

Lemma in_countdown (k n lo : nat) : In k (countdown n lo) -> lo <= k <= n.
Proof.
  unfold countdown; rewrite <- in_rev, in_seq; lia.
Qed.

Lemma run_rep_inv (cs : cset) (lo : nat) (hi : option nat) (st st' : mstate) :
  In st' (run' (Rep cs lo hi) st) ->
  exists k, st' = mkState (m_pos st + k) (m_grp st) /\ lo <= k /\
            m_pos st + k <= Nat.max (m_pos st) (length line).
Proof.
  simpl; rewrite in_map_iff; intros (k & <- & Hk).
  apply in_countdown in Hk.
  exists k; split; [reflexivity|split; [lia|]].
  pose proof (run_length_le (class_match unicode_isdecimal unicode_isalnum ic cs)
                (skipn (m_pos st) line) hi) as Hlen.
  rewrite length_skipn in Hlen; lia.
Qed.

Lemma run_chr_inv (cs : cset) (st st' : mstate) :
  In st' (run' (Chr cs) st) ->
  st' = mkState (S (m_pos st)) (m_grp st) /\ m_pos st < length line.
Proof.
  simpl; destruct (nth_error line (m_pos st)) as [c|] eqn:E; [|intros []].
  destruct (class_match _ _ ic cs c); [|intros []].
  intros [<-|[]]; split; [reflexivity|].
  apply nth_error_Some; congruence.
Qed.

(** The offset never moves back. *)
Lemma run_le (r : regex) : forall st st',
  In st' (run' r st) -> m_pos st <= m_pos st'.
Proof.
  induction r as [|cs|cs lo hi|r1 IH1 r2 IH2|r1 IH1 r2 IH2|n r IH|r IH| | |];
    intros st st' H.
  - destruct H as [<-|[]]; lia.
  - apply run_chr_inv in H as [-> _]; simpl; lia.
  - apply run_rep_inv in H as (k & -> & _); simpl; lia.
  - simpl in H; apply in_flat_map in H as (s1 & H1 & H2).
    apply IH1 in H1; apply IH2 in H2; lia.
  - simpl in H; apply in_app_or in H as [H|H]; auto.
  - revert st st' H; induction n as [|n IHn]; intros st st' H.
    + destruct H as [<-|[]]; lia.
    + rewrite run_times_succ in H; apply in_flat_map in H as (s1 & H1 & H2).
      apply IH in H1; apply IHn in H2; lia.
  - simpl in H; apply in_map_iff in H as (s1 & <- & H1); simpl; auto.
  - guard_inv H; lia.
  - guard_inv H; lia.
  - guard_inv H; lia.
Qed.

(** The offset never leaves the line. *)
Lemma run_in_line (r : regex) : forall st st',
  In st' (run' r st) -> m_pos st <= length line -> m_pos st' <= length line.
Proof.
  induction r as [|cs|cs lo hi|r1 IH1 r2 IH2|r1 IH1 r2 IH2|n r IH|r IH| | |];
    intros st st' H Hst.
  - destruct H as [<-|[]]; lia.
  - apply run_chr_inv in H as [-> ?]; simpl; lia.
  - apply run_rep_inv in H as (k & -> & _ & ?); simpl; lia.
  - simpl in H; apply in_flat_map in H as (s1 & H1 & H2); eauto.
  - simpl in H; apply in_app_or in H as [H|H]; eauto.
  - revert st st' H Hst; induction n as [|n IHn]; intros st st' H Hst.
    + destruct H as [<-|[]]; lia.
    + rewrite run_times_succ in H; apply in_flat_map in H as (s1 & H1 & H2);
        eauto.
  - simpl in H; apply in_map_iff in H as (s1 & <- & H1); simpl; eauto.
  - guard_inv H; lia.
  - guard_inv H; lia.
  - guard_inv H; lia.
Qed.

(** A consuming expression moves the offset forward. *)
Lemma run_consumes (r : regex) : forall st st',
  consumes r = true -> In st' (run' r st) -> m_pos st < m_pos st'.
Proof.
  induction r as [|cs|cs lo hi|r1 IH1 r2 IH2|r1 IH1 r2 IH2|n r IH|r IH| | |];
    intros st st' Hc H; simpl in Hc; try discriminate.
  - apply run_chr_inv in H as [-> _]; simpl; lia.
  - apply run_rep_inv in H as (k & -> & ? & _); simpl.
    apply Nat.ltb_lt in Hc; lia.
  - simpl in H; apply in_flat_map in H as (s1 & H1 & H2).
    pose proof (run_le _ _ _ H1); pose proof (run_le _ _ _ H2).
    apply orb_true_iff in Hc as [Hc|Hc];
      [apply (IH1 _ _ Hc) in H1|apply (IH2 _ _ Hc) in H2]; lia.
  - apply andb_true_iff in Hc as [Hc1 Hc2].
    simpl in H; apply in_app_or in H as [H|H]; auto.
  - apply andb_true_iff in Hc as [Hn Hc]; apply Nat.ltb_lt in Hn.
    destruct n as [|n]; [lia|].
    rewrite run_times_succ in H; apply in_flat_map in H as (s1 & H1 & H2).
    apply (IH _ _ Hc) in H1; apply run_le in H2; lia.
  - simpl in H; apply in_map_iff in H as (s1 & <- & H1); simpl; auto.
Qed.

(** The span recorded for group 1 is non-empty and behind the offset. *)
Lemma run_group (r : regex) : forall st st',
  groups_consume r = true -> grp_ok st -> In st' (run' r st) -> grp_ok st'.
Proof.
  induction r as [|cs|cs lo hi|r1 IH1 r2 IH2|r1 IH1 r2 IH2|n r IH|r IH| | |];
    intros st st' Hg Hst H; simpl in Hg.
  - destruct H as [<-|[]]; assumption.
  - apply run_chr_inv in H as [-> _]; unfold grp_ok in *; simpl.
    destruct (m_grp st) as [[a b]|]; [lia|exact I].
  - apply run_rep_inv in H as (k & -> & _); unfold grp_ok in *; simpl.
    destruct (m_grp st) as [[a b]|]; [lia|exact I].
  - apply andb_true_iff in Hg as [Hg1 Hg2].
    simpl in H; apply in_flat_map in H as (s1 & H1 & H2).
    apply (IH2 s1 st' Hg2); [apply (IH1 st s1 Hg1 Hst H1)|exact H2].
  - apply andb_true_iff in Hg as [Hg1 Hg2].
    simpl in H; apply in_app_or in H as [H|H]; eauto.
  - revert st st' Hst H; induction n as [|n IHn]; intros st st' Hst H.
    + destruct H as [<-|[]]; assumption.
    + rewrite run_times_succ in H; apply in_flat_map in H as (s1 & H1 & H2).
      apply (IHn s1 st'); [apply (IH st s1 Hg Hst H1)|exact H2].
  - apply andb_true_iff in Hg as [Hc Hg].
    simpl in H; apply in_map_iff in H as (s1 & <- & H1); unfold grp_ok; simpl.
    pose proof (run_consumes _ _ _ Hc H1); lia.
  - guard_inv H; assumption.
  - guard_inv H; assumption.
  - guard_inv H; assumption.
Qed.

(** Only an expression that has the group sets its span. *)
Lemma run_keeps_group (r : regex) : has_group r = false ->
  forall st st', In st' (run' r st) -> m_grp st' = m_grp st.
Proof.
  induction r as [|cs|cs lo hi|r1 IH1 r2 IH2|r1 IH1 r2 IH2|n r IH|r IH| | |];
    intros Hg st st' H; simpl in Hg.
  - destruct H as [<-|[]]; reflexivity.
  - apply run_chr_inv in H as [-> _]; reflexivity.
  - apply run_rep_inv in H as (k & -> & _); reflexivity.
  - apply orb_false_iff in Hg as [Hg1 Hg2].
    simpl in H; apply in_flat_map in H as (s1 & H1 & H2).
    rewrite (IH2 Hg2 _ _ H2); exact (IH1 Hg1 _ _ H1).
  - apply orb_false_iff in Hg as [Hg1 Hg2].
    simpl in H; apply in_app_or in H as [H|H]; auto.
  - revert st st' H; induction n as [|n IHn]; intros st st' H.
    + destruct H as [<-|[]]; reflexivity.
    + rewrite run_times_succ in H; apply in_flat_map in H as (s1 & H1 & H2).
      rewrite (IHn _ _ H2); exact (IH Hg _ _ H1).
  - discriminate.
  - guard_inv H; reflexivity.
  - guard_inv H; reflexivity.
  - guard_inv H; reflexivity.
Qed.

End MatcherFacts.

(** ** Matches and candidates lie in the line *)

Section CandidateFacts.

Variable unicode_isdecimal : char -> bool.
Variable unicode_isalnum : char -> bool.
Variable line : str.

Local Abbreviation finditer' := (finditer unicode_isdecimal unicode_isalnum).
Local Abbreviation scan' := (scan unicode_isdecimal unicode_isalnum).
Local Abbreviation match_at' := (match_at unicode_isdecimal unicode_isalnum).

Lemma match_at_ok (c : compiled) (b : bool) (p : nat) (m : rmatch) :
  consumes (re_ast c) = true -> groups_consume (re_ast c) = true ->
  p <= length line ->
  match_at' c line b p = Some m -> m_start m = p /\ match_ok line m.
Proof.
  intros Hc Hg Hp; unfold match_at.
  destruct (find _ _) as [s|] eqn:E; [|discriminate].
  intros [= <-]; apply find_some in E as [Hin _].
  pose proof (run_consumes _ _ _ _ _ _ _ Hc Hin) as Hlt.
  pose proof (run_in_line _ _ _ _ _ _ _ Hin Hp) as Hle.
  assert (Hinit : grp_ok (mkState p None)) by exact I.
  pose proof (run_group _ _ _ _ _ _ _ Hg Hinit Hin) as Hgrp.
  unfold match_ok, grp_ok in *; simpl in *.
  repeat split; try lia.
  destruct (m_grp s) as [[a e]|]; [lia|exact I].
Qed.

Lemma scan_Forall (P : rmatch -> Prop) (c : compiled) :
  forall offsets next,
    (forall b p m, In p offsets -> match_at' c line b p = Some m -> P m) ->
    Forall P (scan' c line offsets next).
Proof.
  induction offsets as [|p rest IH]; intros next HP; simpl; [constructor|].
  assert (Hrest : forall next', Forall P (scan' c line rest next')).
  { intros next'; apply IH; intros b q m Hq; apply HP; right; exact Hq. }
  assert (Hp : forall b m, match_at' c line b p = Some m -> P m).
  { intros b m; apply HP; left; reflexivity. }
  destruct (p <? next); [apply Hrest|].
  destruct (match_at' c line false p) as [m|] eqn:E1; [|apply Hrest].
  destruct (m_end m =? p); [|constructor; eauto].
  destruct (match_at' c line true p) as [m'|] eqn:E2.
  - constructor; [eauto|constructor; eauto].
  - constructor; eauto.
Qed.

Lemma scan_ok (c : compiled) :
  consumes (re_ast c) = true -> groups_consume (re_ast c) = true ->
  forall offsets next,
    Forall (fun p => p <= length line) offsets ->
    Forall (match_ok line) (scan' c line offsets next).
Proof.
  intros Hc Hg offsets next Hall; apply scan_Forall.
  intros b p m Hp Hm; rewrite Forall_forall in Hall.
  exact (proj2 (match_at_ok c b p m Hc Hg (Hall p Hp) Hm)).
Qed.

Lemma finditer_ok (c : compiled) :
  consumes (re_ast c) = true -> groups_consume (re_ast c) = true ->
  Forall (match_ok line) (finditer' c line).
Proof.
  intros Hc Hg; apply scan_ok; auto.
  apply Forall_forall; intros p Hp; apply in_seq in Hp; lia.
Qed.

Lemma cand_of_ok (color : RGBColor) (bold : bool) (m : rmatch) :
  match_ok line m -> cand_ok line (cand_of color bold m).
Proof.
  unfold match_ok, cand_ok, cand_of, span_of, cand_start, cand_end.
  destruct (m_group1 m) as [[a e]|]; simpl; lia.
Qed.

Lemma pattern_matches_ok (p : pattern) :
  well_formed p = true ->
  Forall (cand_ok line)
         (pattern_matches unicode_isdecimal unicode_isalnum line p).
Proof.
  destruct p as [[re color] bold]; unfold well_formed; simpl.
  intros H; apply andb_true_iff in H as [Hc Hg].
  apply Forall_forall; intros c Hin; apply in_map_iff in Hin as (m & <- & Hm).
  apply cand_of_ok.
  pose proof (finditer_ok re Hc Hg) as Hall.
  rewrite Forall_forall in Hall; auto.
Qed.

Lemma collect_matches_ok (patterns : list pattern) :
  forallb well_formed patterns = true ->
  Forall (cand_ok line)
         (collect_matches unicode_isdecimal unicode_isalnum patterns line).
Proof.
  intros Hwf; apply Forall_forall; intros c Hin.
  apply in_flat_map in Hin as (p & Hp & Hc).
  rewrite forallb_forall in Hwf.
  pose proof (pattern_matches_ok p (Hwf p Hp)) as Hall.
  rewrite Forall_forall in Hall; auto.
Qed.

(** The guard of the loop: a match whose [lastindex] is set comes from a
    pattern that has group 1. *)
Lemma match_at_lastindex (c : compiled) (b : bool) (p : nat) (m : rmatch) :
  match_at' c line b p = Some m ->
  m_group1 m <> None -> has_group (re_ast c) = true.
Proof.
  unfold match_at.
  destruct (find _ _) as [s|] eqn:E; [|discriminate].
  intros [= <-]; apply find_some in E as [Hin _]; simpl; intros Hset.
  destruct (has_group (re_ast c)) eqn:Hg; [reflexivity|].
  rewrite (run_keeps_group _ _ _ _ _ Hg _ _ Hin) in Hset.
  exfalso; apply Hset; reflexivity.
Qed.

Lemma finditer_lastindex (c : compiled) :
  Forall (fun m => m_group1 m <> None -> has_group (re_ast c) = true)
         (finditer' c line).
Proof.
  apply scan_Forall; intros b p m _; apply match_at_lastindex.
Qed.

End CandidateFacts.

(** ** Slices *)

Lemma slice_app (line : str) (a e b : nat) :
  a <= e -> e <= b -> slice line a e ++ slice line e b = slice line a b.
Proof.
  intros Hae Heb; unfold slice.
  replace (skipn e line) with (skipn (e - a) (skipn a line))
    by (rewrite skipn_skipn; f_equal; lia).
  replace (b - a) with ((e - a) + (b - e)) by lia.
  generalize (skipn a line) (e - a) (b - e); clear.
  intros l n m; revert l; induction n as [|n IH]; intros l; simpl;
    [reflexivity|].
  destruct l as [|x l]; simpl; [now rewrite firstn_nil|].
  now rewrite IH.
Qed.

Lemma slice_all (line : str) : slice line 0 (length line) = line.
Proof. unfold slice; simpl; rewrite Nat.sub_0_r; apply firstn_all. Qed.

Lemma slice_to_end (line : str) (pos : nat) :
  slice line pos (length line) = skipn pos line.
Proof.
  unfold slice; apply firstn_all2; rewrite length_skipn; lia.
Qed.

(** ** What a literal word matches *)

Lemma slice_nth (line : str) : forall p x,
  nth_error line p = Some x -> slice line p (S p) = [x].
Proof.
  unfold slice; induction line as [|y line IH]; intros [|p] x H;
    try discriminate.
  - injection H as ->; reflexivity.
  - simpl in H; apply IH in H.
    replace (S (S p) - S p) with (S p - p) by lia; exact H.
Qed.

Lemma slice_empty (line : str) (p : nat) : slice line p p = [].
Proof. unfold slice; now rewrite Nat.sub_diag. Qed.

Section LiteralFacts.

Variable unicode_isdecimal : char -> bool.
Variable unicode_isalnum : char -> bool.
Variable line : str.

Local Abbreviation run' := (run unicode_isdecimal unicode_isalnum false line).

(** Without IGNORECASE a literal word matches its own characters only. *)
Lemma run_literal (w : str) : forall st st',
  In st' (run' (fold_right (fun c r => Seq (Chr [IChar c]) r) Eps w) st) ->
  slice line (m_pos st) (m_pos st') = w /\
  m_pos st <= m_pos st' /\ m_grp st' = m_grp st.
Proof.
  induction w as [|c w IH]; intros st st' H.
  - destruct H as [<-|[]]; rewrite slice_empty; auto.
  - simpl in H; apply in_flat_map in H as (s1 & H1 & H2).
    destruct (nth_error line (m_pos st)) as [x|] eqn:Ex; [|destruct H1].
    rewrite !orb_false_r in H1.
    destruct (x =? c)%N eqn:Exc; [|destruct H1].
    apply N.eqb_eq in Exc; subst x; destruct H1 as [<-|[]].
    apply IH in H2 as (Hs & Hle & Hg); simpl in *.
    repeat split; [|lia|exact Hg].
    rewrite <- (slice_app line (m_pos st) (S (m_pos st)) (m_pos st'))
      by lia.
    now rewrite (slice_nth line _ _ Ex), Hs.
Qed.

Lemma run_lit (s : string) (st st' : mstate) :
  In st' (run' (lit s) st) ->
  slice line (m_pos st) (m_pos st') = codes s /\
  m_pos st <= m_pos st' /\ m_grp st' = m_grp st.
Proof. apply run_literal. Qed.

(** A match of the VNI pattern has its group on one of the four numbers. *)
Lemma vni_match_text (src : string) (m : rmatch) :
  In m (finditer unicode_isdecimal unicode_isalnum
                 (re_compile src re_vni false) line) ->
  exists s e,
    m_group1 m = Some (s, e) /\
    In (slice line s e)
       (map codes ["401151"; "401152"; "401153"; "50101"]%string).
Proof.
  intros Hm.
  pose proof (scan_Forall unicode_isdecimal unicode_isalnum line
                (fun m => exists s e,
                     m_group1 m = Some (s, e) /\
                     In (slice line s e)
                        (map codes ["401151"; "401152"; "401153"; "50101"]%string))
                (re_compile src re_vni false)
                (seq 0 (S (length line))) 0) as Hall.
  rewrite Forall_forall in Hall; apply Hall; [|exact Hm]; clear Hall Hm m.
  intros b p m _; unfold match_at; simpl re_ast; simpl re_ignorecase.
  destruct (find _ _) as [st|] eqn:E; [|discriminate].
  intros [= <-]; apply find_some in E as [Hin _]; simpl m_group1.
  unfold re_vni, seqs in Hin; simpl fold_right in Hin.
  change (In st (flat_map
                   (fun s1 => flat_map
                      (fun s2 => flat_map (run' Eps) (run' WordB s2))
                      (run' (Group (alts (map lit ["401151"; "401152";
                                                   "401153"; "50101"]%string)))
                            s1))
                   (run' WordB (mkState p None)))) in Hin.
  apply in_flat_map in Hin as (s1 & H1 & Hin); guard_inv H1.
  apply in_flat_map in Hin as (s2 & H2 & Hin).
  apply in_flat_map in Hin as (s3 & H3 & Hin).
  guard_inv H3; destruct Hin as [<-|[]].
  change (In s2 (map (fun s => mkState (m_pos s) (Some (p, m_pos s)))
                     (run' (lit "401151") (mkState p None)
                      ++ run' (lit "401152") (mkState p None)
                      ++ run' (lit "401153") (mkState p None)
                      ++ run' (lit "50101") (mkState p None)))) in H2.
  apply in_map_iff in H2 as (s & <- & Hs).
  exists p, (m_pos s); split; [reflexivity|].
  repeat (apply in_app_or in Hs as [Hs|Hs];
          [apply run_lit in Hs as (Hs & _); simpl m_pos in Hs; rewrite Hs;
           simpl; auto 6|]).
  apply run_lit in Hs as (Hs & _); simpl m_pos in Hs; rewrite Hs;
    simpl; auto 6.
Qed.

End LiteralFacts.

(** ** The stable sort and the overlap filter *)

Lemma insert_by_start_in (x y : cand) (l : list cand) :
  In y (insert_by_start x l) <-> y = x \/ In y l.
Proof.
  induction l as [|z l IH]; simpl.
  - intuition congruence.
  - destruct (cand_start x <=? cand_start z); simpl; [intuition congruence|].
    rewrite IH; intuition.
Qed.

Lemma sort_by_start_in (y : cand) (l : list cand) :
  In y (sort_by_start l) <-> In y l.
Proof.
  induction l as [|x l IH]; simpl; [tauto|].
  rewrite insert_by_start_in, IH; intuition congruence.
Qed.

Lemma sort_by_start_Forall (P : cand -> Prop) (l : list cand) :
  Forall P l -> Forall P (sort_by_start l).
Proof.
  rewrite !Forall_forall; intros H y Hy.
  apply H, (proj1 (sort_by_start_in y l)), Hy.
Qed.

Lemma insert_by_start_sorted (x : cand) (l : list cand) :
  sorted_by_start l -> sorted_by_start (insert_by_start x l).
Proof.
  induction l as [|z l IH]; simpl; [intros _; split; [constructor|exact I]|].
  intros [Hz Hl].
  destruct (cand_start x <=? cand_start z) eqn:E; simpl.
  - apply Nat.leb_le in E; repeat split; auto.
    constructor; [exact E|].
    eapply Forall_impl; [|exact Hz]; simpl; intros; lia.
  - apply Nat.leb_gt in E; split; [|auto].
    apply Forall_forall; intros y Hy; apply insert_by_start_in in Hy as [->|Hy];
      [lia|].
    rewrite Forall_forall in Hz; auto.
Qed.

Lemma sort_by_start_sorted (l : list cand) : sorted_by_start (sort_by_start l).
Proof.
  induction l as [|x l IH]; simpl; [exact I|].
  apply insert_by_start_sorted; exact IH.
Qed.

Lemma remove_overlaps_in (c : cand) (l : list cand) : forall last,
  In c (remove_overlaps l last) -> In c l.
Proof.
  induction l as [|x l IH]; intros last; simpl; [tauto|].
  destruct (last <=? cand_start x); simpl; intuition eauto.
Qed.

Lemma remove_overlaps_Forall (P : cand -> Prop) (l : list cand) (last : nat) :
  Forall P l -> Forall P (remove_overlaps l last).
Proof.
  rewrite !Forall_forall; intros H c Hc.
  apply H, (remove_overlaps_in c l last), Hc.
Qed.

Lemma remove_overlaps_chained (l : list cand) : forall last,
  chained last (remove_overlaps l last).
Proof.
  induction l as [|x l IH]; intros last; simpl; [exact I|].
  destruct (last <=? cand_start x) eqn:E; simpl; [|apply IH].
  apply Nat.leb_le in E; split; [exact E|apply IH].
Qed.

Lemma remove_overlaps_app (l1 l2 : list cand) : forall last,
  remove_overlaps (l1 ++ l2) last
  = remove_overlaps l1 last ++ remove_overlaps l2 (last_end_after l1 last).
Proof.
  induction l1 as [|c l1 IH]; intros last; simpl; [reflexivity|].
  destruct (last <=? cand_start c); simpl; now rewrite IH.
Qed.

Lemma remove_overlaps_dropped (l post : list cand) (last : nat) :
  Forall (fun c => cand_start c < last) l ->
  remove_overlaps (l ++ post) last = remove_overlaps post last.
Proof.
  induction 1 as [|c l Hc _ IH]; simpl; [reflexivity|].
  apply Nat.leb_gt in Hc; now rewrite Hc.
Qed.

Lemma sorted_by_start_app_r (l1 l2 : list cand) :
  sorted_by_start (l1 ++ l2) -> sorted_by_start l2.
Proof.
  induction l1 as [|c l1 IH]; simpl; [auto|intros [_ H]; auto].
Qed.

Lemma sorted_by_start_before (mid post : list cand) (b : cand) :
  sorted_by_start (mid ++ b :: post) ->
  Forall (fun c => cand_start c <= cand_start b) mid.
Proof.
  induction mid as [|c mid IH]; simpl; [constructor|].
  intros [Hc Hs]; constructor; [|auto].
  rewrite Forall_forall in Hc; apply Hc, in_or_app; right; left; reflexivity.
Qed.

(** The sort is stable: the candidates that start at one offset keep the
    order in which the patterns produced them. *)
Lemma insert_by_start_filter (k : nat) (x : cand) (l : list cand) :
  filter (fun c => cand_start c =? k) (insert_by_start x l)
  = filter (fun c => cand_start c =? k) (x :: l).
Proof.
  induction l as [|y l IH]; [reflexivity|].
  simpl insert_by_start.
  destruct (cand_start x <=? cand_start y) eqn:E; [reflexivity|].
  apply Nat.leb_gt in E.
  simpl in *; rewrite IH.
  destruct (cand_start x =? k) eqn:Ex, (cand_start y =? k) eqn:Ey;
    try reflexivity.
  apply Nat.eqb_eq in Ex, Ey; lia.
Qed.

Lemma sort_by_start_stable (k : nat) (l : list cand) :
  filter (fun c => cand_start c =? k) (sort_by_start l)
  = filter (fun c => cand_start c =? k) l.
Proof.
  induction l as [|x l IH]; [reflexivity|].
  simpl sort_by_start; rewrite insert_by_start_filter; simpl; now rewrite IH.
Qed.

(** ** The segments cut the line *)

Lemma tiling_le (bounds : list (nat * nat)) : forall a b,
  tiling a bounds b -> a <= b.
Proof.
  induction bounds as [|[s e] rest IH]; intros a b; simpl; [lia|].
  intros (-> & Hlt & Hrest); apply IH in Hrest; lia.
Qed.

Lemma tiling_concat (line : str) (bounds : list (nat * nat)) : forall a b,
  tiling a bounds b ->
  concat (map (fun se => slice line (fst se) (snd se)) bounds) = slice line a b.
Proof.
  induction bounds as [|[s e] rest IH]; intros a b; simpl.
  - intros <-; unfold slice; now rewrite Nat.sub_diag.
  - intros (-> & Hlt & Hrest).
    rewrite (IH _ _ Hrest); apply slice_app; [lia|].
    eapply tiling_le; eauto.
Qed.

Lemma build_segments_bounds (line : str) (filtered : list cand) : forall pos,
  map seg_text (build_segments line filtered pos)
  = map (fun se => slice line (fst se) (snd se))
        (segment_bounds (length line) filtered pos).
Proof.
  induction filtered as [|[[[s e] color] bold] rest IH]; intros pos; simpl.
  - destruct (pos <? length line); simpl; [|reflexivity].
    now rewrite slice_to_end.
  - unfold cand_start, cand_end; simpl.
    rewrite !map_app; simpl; rewrite IH.
    destruct (pos <? s); reflexivity.
Qed.

Lemma segment_bounds_tiling (len : nat) (filtered : list cand) : forall pos,
  chained pos filtered ->
  Forall (fun c => cand_start c < cand_end c /\ cand_end c <= len) filtered ->
  pos <= len ->
  tiling pos (segment_bounds len filtered pos) len.
Proof.
  induction filtered as [|c rest IH]; intros pos Hch Hok Hpos; simpl.
  - destruct (pos <? len) eqn:E; simpl.
    + apply Nat.ltb_lt in E; auto.
    + apply Nat.ltb_ge in E; lia.
  - destruct Hch as [Hle Hch]; inversion Hok as [|? ? [Hlt Hend] Hrest]; subst.
    specialize (IH _ Hch Hrest Hend).
    destruct (pos <? cand_start c) eqn:E; simpl.
    + apply Nat.ltb_lt in E; auto.
    + apply Nat.ltb_ge in E; repeat split; auto; lia.
Qed.

(** ** The two readings of [colorize_line] agree *)

(** A candidate with its offsets as Python integers. *)
Definition cand_py (c : cand) : pycand :=
  let '(s, e, color, bold) := c in (Z.of_nat s, Z.of_nat e, color, bold).

Lemma mapM_map {A B : Type} (f : A -> B + exn) (g : A -> B) (l : list A) :
  Forall (fun a => f a = inl (g a)) l -> mapM f l = inl (map g l).
Proof.
  induction 1 as [|a l Ha _ IH]; simpl; [reflexivity|].
  rewrite Ha; simpl; rewrite IH; reflexivity.
Qed.

Lemma leb_of_nat (a b : nat) : (Z.of_nat a <=? Z.of_nat b)%Z = (a <=? b).
Proof.
  destruct (Z.leb_spec (Z.of_nat a) (Z.of_nat b));
    destruct (Nat.leb_spec a b); try reflexivity; lia.
Qed.

Lemma ltb_of_nat (a b : nat) : (Z.of_nat a <? Z.of_nat b)%Z = (a <? b).
Proof.
  destruct (Z.ltb_spec (Z.of_nat a) (Z.of_nat b));
    destruct (Nat.ltb_spec a b); try reflexivity; lia.
Qed.

Lemma slice_bound_of_nat (n a : nat) : slice_bound n (Z.of_nat a) = Nat.min a n.
Proof.
  unfold slice_bound.
  destruct (Z.ltb_spec (Z.of_nat a) 0); [lia|].
  rewrite Nat2Z.id; reflexivity.
Qed.

Lemma skipn_min (line : str) (a : nat) :
  skipn (Nat.min a (length line)) line = skipn a line.
Proof.
  destruct (Nat.le_gt_cases a (length line)) as [H|H].
  - rewrite Nat.min_l by exact H; reflexivity.
  - rewrite Nat.min_r by lia.
    rewrite !skipn_all2 by lia; reflexivity.
Qed.

Lemma slice_py_of_nat (line : str) (a b : nat) :
  slice_py line (Z.of_nat a) (Z.of_nat b) = slice line a b.
Proof.
  unfold slice_py, slice; rewrite !slice_bound_of_nat, skipn_min.
  destruct (Nat.le_gt_cases b (length line)) as [Hb|Hb].
  - rewrite (Nat.min_l b) by exact Hb.
    destruct (Nat.le_gt_cases a (length line)) as [Ha|Ha].
    + rewrite Nat.min_l by exact Ha; reflexivity.
    + rewrite skipn_all2 by lia; rewrite !firstn_nil; reflexivity.
  - rewrite (Nat.min_r b) by lia.
    rewrite !firstn_all2; try reflexivity; rewrite length_skipn; lia.
Qed.

Lemma slice_from_py_of_nat (line : str) (a : nat) :
  slice_from_py line (Z.of_nat a) = skipn a line.
Proof.
  unfold slice_from_py; rewrite slice_bound_of_nat; apply skipn_min.
Qed.

Lemma insert_py_map (x : cand) (l : list cand) :
  insert_py (cand_py x) (map cand_py l) = map cand_py (insert_by_start x l).
Proof.
  induction l as [|y l IH]; simpl; [reflexivity|].
  replace (pycand_start (cand_py x) <=? pycand_start (cand_py y))%Z
    with (cand_start x <=? cand_start y)
    by (destruct x as [[[? ?] ?] ?], y as [[[? ?] ?] ?]; symmetry;
        apply leb_of_nat).
  destruct (cand_start x <=? cand_start y); simpl; [reflexivity|].
  rewrite IH; reflexivity.
Qed.

Lemma sort_py_map (l : list cand) :
  sort_py (map cand_py l) = map cand_py (sort_by_start l).
Proof.
  unfold sort_py, sort_by_start.
  induction l as [|x l IH]; simpl; [reflexivity|].
  rewrite IH; apply insert_py_map.
Qed.

Lemma remove_overlaps_py_map (l : list cand) : forall last,
  remove_overlaps_py (map cand_py l) (Z.of_nat last)
  = map cand_py (remove_overlaps l last).
Proof.
  induction l as [|[[[s e] color] bold] l IH]; intros last; simpl;
    [reflexivity|].
  rewrite leb_of_nat; unfold cand_start, cand_end; simpl.
  destruct (last <=? s); simpl; rewrite IH; reflexivity.
Qed.

Lemma build_segments_py_map (line : str) (l : list cand) : forall pos,
  build_segments_py line (map cand_py l) (Z.of_nat pos)
  = build_segments line l pos.
Proof.
  induction l as [|[[[s e] color] bold] l IH]; intros pos; simpl.
  - rewrite ltb_of_nat, slice_from_py_of_nat; reflexivity.
  - rewrite ltb_of_nat, !slice_py_of_nat, IH; reflexivity.
Qed.

Section MatchObjects.

Variable unicode_isdecimal : char -> bool.
Variable unicode_isalnum : char -> bool.

Local Abbreviation finditer' := (finditer unicode_isdecimal unicode_isalnum).

(** Under the guard the three conditional expressions of the loop raise
    nothing and give the span of [cand_of]. *)
Lemma match_candidate_guarded (re : compiled) (color : RGBColor) (bold : bool)
    (line : str) (m : rmatch) :
  (m_group1 m <> None -> has_group (re_ast re) = true) ->
  match_candidate re color bold line m = inl (cand_py (cand_of color bold m)).
Proof.
  intros Hguard; unfold match_candidate, cand_of, span_of, m_lastindex.
  destruct (m_group1 m) as [[s e]|] eqn:Eg; simpl.
  - unfold match_group, match_start, match_end, match_span.
    rewrite Hguard by discriminate; rewrite Eg; reflexivity.
  - reflexivity.
Qed.

Lemma pattern_matches_py_map (line : str) (p : pattern) :
  pattern_matches_py unicode_isdecimal unicode_isalnum line p
  = inl (map cand_py (pattern_matches unicode_isdecimal unicode_isalnum line p)).
Proof.
  destruct p as [[re color] bold]; unfold pattern_matches_py, pattern_matches.
  rewrite map_map; apply mapM_map.
  eapply Forall_impl; [|apply finditer_lastindex].
  intros m; apply match_candidate_guarded.
Qed.

Lemma collect_matches_py_map (patterns : list pattern) (line : str) :
  collect_matches_py unicode_isdecimal unicode_isalnum patterns line
  = inl (map cand_py
           (collect_matches unicode_isdecimal unicode_isalnum patterns line)).
Proof.
  unfold collect_matches_py, collect_matches.
  rewrite (mapM_map _ (fun p => map cand_py
                         (pattern_matches unicode_isdecimal unicode_isalnum
                                          line p))).
  - simpl; f_equal.
    rewrite flat_map_concat_map, concat_map, map_map; reflexivity.
  - apply Forall_forall; intros p _; apply pattern_matches_py_map.
Qed.

(** No error branch of [colorize_line] is taken, whatever the table and the
    line: the function with Python's match objects and integers returns,
    and returns what [colorize_with] computes. *)
Lemma colorize_with_py_returns (patterns : list pattern) (line : str) :
  colorize_with_py unicode_isdecimal unicode_isalnum patterns line
  = inl (colorize_with unicode_isdecimal unicode_isalnum patterns line).
Proof.
  unfold colorize_with_py, colorize_with.
  destruct (is_comment_line line); [reflexivity|].
  rewrite collect_matches_py_map; simpl.
  rewrite sort_py_map.
  rewrite (remove_overlaps_py_map _ 0).
  rewrite (build_segments_py_map line _ 0); reflexivity.
Qed.

End MatchObjects.

(** ** Properties of [colorize_line] and [add_colored_runs] *)

(** A table with no digit and no letter beyond ASCII, for concrete runs. *)
Definition ascii_only (c : char) : bool := false.

(** A library every call of which returns, for concrete runs. *)
Definition docx_returns (c : docx_call) : option exn := None.

Lemma SH_PATTERNS_well_formed : forallb well_formed _SH_PATTERNS = true.
Proof. vm_compute; reflexivity. Qed.

Section Colorize.

Variable unicode_isdecimal : char -> bool.
Variable unicode_isalnum : char -> bool.

Local Abbreviation colorize_with' :=
  (colorize_with unicode_isdecimal unicode_isalnum).
Local Abbreviation colorize_line' :=
  (colorize_line unicode_isdecimal unicode_isalnum).
Local Abbreviation collect_matches' :=
  (collect_matches unicode_isdecimal unicode_isalnum).
Local Abbreviation colorize_line_py' :=
  (colorize_line_py unicode_isdecimal unicode_isalnum).
Local Abbreviation display_segments' :=
  (display_segments unicode_isdecimal unicode_isalnum).

(** The spans kept by the filter for a line. *)
Definition kept_spans (patterns : list pattern) (line : str) : list cand :=
  remove_overlaps (sort_by_start (collect_matches' patterns line)) 0.

Lemma kept_spans_ok (patterns : list pattern) (line : str) :
  forallb well_formed patterns = true ->
  Forall (cand_ok line) (kept_spans patterns line).
Proof.
  intros Hwf; apply remove_overlaps_Forall, sort_by_start_Forall.
  apply collect_matches_ok; exact Hwf.
Qed.

Lemma kept_spans_tiling (patterns : list pattern) (line : str) :
  forallb well_formed patterns = true ->
  tiling 0 (segment_bounds (length line) (kept_spans patterns line) 0)
         (length line).
Proof.
  intros Hwf; apply segment_bounds_tiling.
  - apply remove_overlaps_chained.
  - apply kept_spans_ok; exact Hwf.
  - lia.
Qed.

Lemma colorize_with_unfold (patterns : list pattern) (line : str) :
  is_comment_line line = false ->
  colorize_with' patterns line
  = match build_segments line (kept_spans patterns line) 0 with
    | [] => [(line, CLR_DEFAULT, false)]
    | seg :: segs => seg :: segs
    end.
Proof.
  intros Hc; unfold colorize_with, kept_spans; rewrite Hc; cbv zeta.
  destruct (build_segments _ _ _); reflexivity.
Qed.

(** On a non-empty line the segments are the slices of a tiling. *)
Lemma colorize_with_tiling (patterns : list pattern) (line : str) :
  forallb well_formed patterns = true ->
  line <> [] ->
  exists bounds,
    tiling 0 bounds (length line) /\
    map seg_text (colorize_with' patterns line)
    = map (fun se => slice line (fst se) (snd se)) bounds.
Proof.
  intros Hwf Hne.
  assert (Hlen : 0 < length line) by (destruct line; simpl; [congruence|lia]).
  destruct (is_comment_line line) eqn:Hc.
  - exists [(0, length line)]; split; [simpl; auto|].
    unfold colorize_with; rewrite Hc; simpl; now rewrite slice_all.
  - exists (segment_bounds (length line) (kept_spans patterns line) 0).
    pose proof (kept_spans_tiling patterns line Hwf) as Htil.
    split; [exact Htil|].
    rewrite colorize_with_unfold by exact Hc.
    pose proof (build_segments_bounds line (kept_spans patterns line) 0) as Hb.
    destruct (build_segments line (kept_spans patterns line) 0) as [|seg segs];
      [|exact Hb].
    destruct (segment_bounds _ _ _); [simpl in Htil; lia|discriminate].
Qed.

(** On the empty line there is one segment, and it is empty. *)
Lemma colorize_with_nil (patterns : list pattern) :
  forallb well_formed patterns = true ->
  colorize_with' patterns [] = [([], CLR_DEFAULT, false)].
Proof.
  intros Hwf; rewrite colorize_with_unfold by reflexivity.
  pose proof (kept_spans_ok patterns [] Hwf) as Hok.
  destruct (kept_spans patterns []) as [|c rest]; [reflexivity|].
  inversion Hok as [|? ? [Hlt Hle] _]; simpl in Hle; lia.
Qed.

Lemma colorize_with_concat (patterns : list pattern) (line : str) :
  forallb well_formed patterns = true ->
  concat (map seg_text (colorize_with' patterns line)) = line.
Proof.
  intros Hwf; destruct line as [|c line'] eqn:E.
  - rewrite colorize_with_nil by exact Hwf; reflexivity.
  - rewrite <- E.
    destruct (colorize_with_tiling patterns line Hwf) as (bounds & Htil & ->);
      [subst; discriminate|].
    rewrite (tiling_concat line bounds _ _ Htil); apply slice_all.
Qed.

(** C1. Reconstruction: the texts of the segments that [colorize_line]
    returns, concatenated in order, are the line it was given.  The one
    substitution is made by [add_colored_runs] before it calls
    [colorize_line]: the segments it goes through are those of the line, or
    of one non-breaking space when the line is empty or whitespace only, and
    their texts concatenate to that line or to that one character. *)
Theorem colorize_line_reconstructs (line : str) :
  concat (map seg_text (colorize_line' line)) = line /\
  display_segments' line
  = colorize_line' (match strip line with [] => [NBSP] | _ => line end) /\
  concat (map seg_text (display_segments' line))
  = match strip line with [] => [NBSP] | _ => line end.
Proof.
  split; [|split].
  - apply colorize_with_concat, SH_PATTERNS_well_formed.
  - reflexivity.
  - apply (colorize_with_concat _SH_PATTERNS (display_line line)),
      SH_PATTERNS_well_formed.
Qed.

(** C2. Coverage: on a non-empty line the segments of [colorize_line] are
    the slices of the line along consecutive non-empty half-open ranges:
    the first starts at offset 0, each starts where the previous one ends,
    the last ends at the length of the line, so none overlap and none is
    empty.  On the empty line the result is the single empty segment. *)
Theorem colorize_line_tiles (line : str) :
  match line with
  | [] => colorize_line' line = [([], CLR_DEFAULT, false)]
  | _ :: _ =>
      exists bounds,
        tiling 0 bounds (length line) /\
        map seg_text (colorize_line' line)
        = map (fun se => slice line (fst se) (snd se)) bounds
  end.
Proof.
  destruct line as [|c line'].
  - apply colorize_with_nil, SH_PATTERNS_well_formed.
  - apply colorize_with_tiling; [apply SH_PATTERNS_well_formed|discriminate].
Qed.

(** C3. Comment lines: when the stripped line starts with [#] or [!], the
    result is the one segment holding the whole line, untrimmed, in the
    comment colour and not bold, whatever the pattern table holds. *)
Theorem colorize_line_comment (line : str) :
  startswith (strip line) (chr_of "#") = true \/
  startswith (strip line) (chr_of "!") = true ->
  colorize_line' line = [(line, CLR_COMMENT, false)] /\
  forall patterns, colorize_with' patterns line = [(line, CLR_COMMENT, false)].
Proof.
  intros H.
  assert (Hc : is_comment_line line = true).
  { unfold is_comment_line; apply orb_true_iff; exact H. }
  unfold colorize_line, colorize_with; rewrite Hc; split; reflexivity.
Qed.

(** C8. Totality: on every line [colorize_line] returns, and returns a
    non-empty list of segments.  Run with the match objects of [re], whose
    [group(1)], [start(1)] and [end(1)] raise IndexError on a pattern without
    the group, and with Python's integers and slices, it raises nothing: the
    test of [m.lastindex] keeps every such call to a pattern that has the
    group, and the result is the one given by [colorize_line] above.  When no
    pattern yields a candidate on a line that is not a comment, the result
    is the whole line as one segment in the default colour. *)
Theorem colorize_line_total (line : str) :
  colorize_line_py' line = inl (colorize_line' line) /\
  colorize_line' line <> [] /\
  (is_comment_line line = false ->
   collect_matches' _SH_PATTERNS line = [] ->
   colorize_line' line = [(line, CLR_DEFAULT, false)]).
Proof.
  split; [|split].
  - apply colorize_with_py_returns.
  - unfold colorize_line, colorize_with.
    destruct (is_comment_line line); [discriminate|].
    destruct (build_segments _ _ _); discriminate.
  - intros Hc Hnone; unfold colorize_line.
    rewrite colorize_with_unfold by exact Hc.
    unfold kept_spans; rewrite Hnone; simpl.
    destruct line; reflexivity.
Qed.

(** Where a segment comes from: it is in the default colour, or it is the
    slice of the line on a kept candidate, with its colour and weight. *)
Lemma build_segments_in (line : str) (filtered : list cand) :
  forall pos text color bold,
    In (text, color, bold) (build_segments line filtered pos) ->
    color = CLR_DEFAULT \/
    exists s e, In (s, e, color, bold) filtered /\ text = slice line s e.
Proof.
  induction filtered as [|[[[s e] c] b] rest IH]; intros pos text color bold;
    simpl.
  - destruct (pos <? length line); [|intros []].
    intros [[= _ <- _]|[]]; left; reflexivity.
  - intros H; apply in_app_or in H as [H|[H|H]].
    + destruct (pos <? s); [|destruct H].
      destruct H as [[= _ <- _]|[]]; left; reflexivity.
    + injection H as <- <- <-; right; exists s, e; auto.
    + apply IH in H as [H|(s' & e' & H & ->)]; [left; exact H|].
      right; exists s', e'; auto.
Qed.

Lemma colorize_with_in (patterns : list pattern) (line : str)
    (text : str) (color : RGBColor) (bold : bool) :
  In (text, color, bold) (colorize_with' patterns line) ->
  color = CLR_COMMENT \/ color = CLR_DEFAULT \/
  exists s e,
    In (s, e, color, bold) (collect_matches' patterns line) /\
    text = slice line s e.
Proof.
  destruct (is_comment_line line) eqn:Hc.
  - unfold colorize_with; rewrite Hc.
    intros [[= _ <- _]|[]]; left; reflexivity.
  - rewrite colorize_with_unfold by exact Hc; intros H; right.
    assert (Hin : color = CLR_DEFAULT \/
                  In (text, color, bold)
                     (build_segments line (kept_spans patterns line) 0)).
    { destruct (build_segments line (kept_spans patterns line) 0);
        [destruct H as [[= _ <- _]|[]]; left; reflexivity|right; exact H]. }
    destruct Hin as [Hd|Hin]; [left; exact Hd|].
    apply build_segments_in in Hin as [Hd|(s & e & Hk & ->)];
      [left; exact Hd|right].
    exists s, e; split; [|reflexivity].
    unfold kept_spans in Hk; apply remove_overlaps_in in Hk.
    apply (proj1 (sort_by_start_in _ _)) in Hk; exact Hk.
Qed.

(** Only the numbers of the allow-list come out in the VNI colour. *)
Lemma vni_segments (line : str) (text : str) (bold : bool) :
  In (text, CLR_VNI, bold) (colorize_line' line) ->
  In text (map codes ["401151"; "401152"; "401153"; "50101"]%string).
Proof.
  intros H; apply colorize_with_in in H as [H|[H|(s & e & H & ->)]];
    try discriminate.
  unfold collect_matches in H; apply in_flat_map in H as (pat & Hp & Hc).
  simpl in Hp.
  repeat (destruct Hp as [<-|Hp];
          [simpl in Hc; apply in_map_iff in Hc as (m & Hm & Hin);
           try discriminate|]);
    [|destruct Hp].
  apply vni_match_text in Hin as (s' & e' & Hg & Htext).
  unfold cand_of, span_of in Hm; rewrite Hg in Hm; simpl in Hm.
  injection Hm as <- <- _; exact Htext.
Qed.

(** C4 as it is stated: of two overlapping candidates, the one of the
    pattern registered earlier is kept and the other one dropped. *)
Definition earlier_pattern_wins : Prop :=
  forall (line : str) (i j : nat) (pi pj : pattern) (a b : cand),
    i < j ->
    nth_error _SH_PATTERNS i = Some pi ->
    nth_error _SH_PATTERNS j = Some pj ->
    In a (pattern_matches unicode_isdecimal unicode_isalnum line pi) ->
    In b (pattern_matches unicode_isdecimal unicode_isalnum line pj) ->
    overlap a b ->
    In a (kept_spans _SH_PATTERNS line) /\
    ~ In b (kept_spans _SH_PATTERNS line).

(** On [swp1.10.0.0.1] the interface pattern (ninth in the table) matches
    the whole line and the address pattern (third) matches [10.0.0.1]; the
    interface span starts first and is the one kept. *)
Lemma earlier_pattern_loses : ~ earlier_pattern_wins.
Proof.
  intros H.
  destruct (H (codes "swp1.10.0.0.1") 2 8
              (re_compile "\b(\d{1,3}\.\d{1,3}\.\d{1,3}\.\d{1,3}(?:/\d{1,2})?)\b"
                          re_ip false, CLR_IP, false)
              (re_compile "\b((?:Gi(?:gabitEthernet)?|GigabitEthernet|Te|nve|Loopback|Vlan|swp|vxlan|br_default|vlan)\d[\w/.\-]*)\b"
                          re_iface false, CLR_IFACE, false)
              (5, 13, CLR_IP, false) (0, 13, CLR_IFACE, false))
    as [Hin _].
  - lia.
  - reflexivity.
  - reflexivity.
  - vm_compute; left; reflexivity.
  - vm_compute; left; reflexivity.
  - unfold overlap, cand_start, cand_end; simpl; lia.
  - vm_compute in Hin; destruct Hin as [Hin|[]]; discriminate.
Qed.

(** C4, amended. The overlap is settled by start offset, not by the order
    of the pattern table: the candidates are sorted by start with a stable
    sort, so that the table order decides only between candidates that
    start at the same offset; every kept span is a whole candidate; a
    candidate of the sorted list is kept exactly when it starts at or after
    the end of the last span kept before it; and when a kept candidate [a]
    overlaps a candidate [b] that comes after it in the sorted list, [b] and
    all the candidates between them leave no trace in the result. *)
Theorem overlap_resolution (line : str) :
  sorted_by_start (sort_by_start (collect_matches' _SH_PATTERNS line)) /\
  (forall k,
     filter (fun c => cand_start c =? k)
            (sort_by_start (collect_matches' _SH_PATTERNS line))
     = filter (fun c => cand_start c =? k) (collect_matches' _SH_PATTERNS line)) /\
  (forall c, In c (kept_spans _SH_PATTERNS line) ->
             In c (collect_matches' _SH_PATTERNS line)) /\
  (forall pre c post,
     sort_by_start (collect_matches' _SH_PATTERNS line) = pre ++ c :: post ->
     kept_spans _SH_PATTERNS line
     = remove_overlaps pre 0
       ++ (if last_end_after pre 0 <=? cand_start c
           then c :: remove_overlaps post (cand_end c)
           else remove_overlaps post (last_end_after pre 0))) /\
  (forall pre a mid b post,
     sort_by_start (collect_matches' _SH_PATTERNS line)
     = pre ++ a :: mid ++ b :: post ->
     last_end_after pre 0 <= cand_start a ->
     cand_start b < cand_end a ->
     kept_spans _SH_PATTERNS line
     = remove_overlaps pre 0 ++ a :: remove_overlaps post (cand_end a)).
Proof.
  split; [apply sort_by_start_sorted|].
  split; [intros k; apply sort_by_start_stable|].
  split; [|split].
  - intros c Hc; unfold kept_spans in Hc.
    apply remove_overlaps_in in Hc.
    apply (proj1 (sort_by_start_in _ _)) in Hc; exact Hc.
  - intros pre c post Heq; unfold kept_spans; rewrite Heq.
    rewrite remove_overlaps_app; simpl.
    destruct (last_end_after pre 0 <=? cand_start c); reflexivity.
  - intros pre a mid b post Heq Hkept Hov.
    pose proof (sort_by_start_sorted (collect_matches' _SH_PATTERNS line)) as Hs.
    unfold kept_spans; rewrite Heq in *.
    rewrite remove_overlaps_app; f_equal; simpl.
    apply Nat.leb_le in Hkept; rewrite Hkept; f_equal.
    apply sorted_by_start_app_r in Hs; destruct Hs as [_ Hs].
    apply sorted_by_start_before in Hs.
    change (mid ++ b :: post) with (mid ++ [b] ++ post).
    rewrite app_assoc; apply remove_overlaps_dropped.
    apply Forall_app; split.
    + eapply Forall_impl; [|exact Hs]; cbv beta; intros; lia.
    + constructor; [exact Hov|constructor].
Qed.

End Colorize.

(** C4, refuted as stated: whatever the Unicode tables, the pattern order
    does not decide overlaps; on [swp1.10.0.0.1] the address span [10.0.0.1]
    (third pattern) overlaps the interface span (ninth pattern), and the
    line comes out as one interface segment. *)
Lemma earlier_pattern_wins_counterexample :
  (forall ud ua, ~ earlier_pattern_wins ud ua) /\
  collect_matches ascii_only ascii_only _SH_PATTERNS (codes "swp1.10.0.0.1")
  = [(5, 13, CLR_IP, false); (0, 13, CLR_IFACE, false)] /\
  colorize_line ascii_only ascii_only (codes "swp1.10.0.0.1")
  = [(codes "swp1.10.0.0.1", CLR_IFACE, false)].
Proof.
  split; [exact earlier_pattern_loses|].
  split; vm_compute; reflexivity.
Qed.

(** ** Concrete lines *)

(** Every way of writing a word in upper and lower case ASCII letters. *)
Fixpoint case_variants (w : str) : list str :=
  match w with
  | [] => [[]]
  | c :: w' =>
      map (cons c) (case_variants w')
      ++ (if (swapcase c =? c)%N then []
          else map (cons (swapcase c)) (case_variants w'))
  end.

Section Scenarios.

Variable unicode_isdecimal : char -> bool.
Variable unicode_isalnum : char -> bool.

Local Abbreviation colorize_line' :=
  (colorize_line unicode_isdecimal unicode_isalnum).
Local Abbreviation collect_matches' :=
  (collect_matches unicode_isdecimal unicode_isalnum).
Local Abbreviation finditer' := (finditer unicode_isdecimal unicode_isalnum).
Local Abbreviation item_match' :=
  (item_match unicode_isdecimal unicode_isalnum).

Ltac each_line := repeat (constructor; [vm_compute; reflexivity|]); constructor.

(** C5. Case: of the twelve patterns only the two status patterns carry the
    IGNORECASE flag.  [UP], [up], [Up], [FULL] and every other casing of
    [up] and [full] come out green and bold, [DOWN], [down] and every casing
    of [down] red and bold, also as words inside a line.  Without the flag a
    literal matches that character alone and a range its own characters:
    interface names, keywords and prompts in the wrong case stay in the
    default colour, while a MAC address may use either case because its
    class lists both. *)
Theorem status_keywords_ignore_case :
  map (fun p : pattern => re_ignorecase (fst (fst p))) _SH_PATTERNS
  = [false; false; false; false; false; true; true;
     false; false; false; false; false] /\
  Forall (fun w => colorize_line' w = [(w, CLR_GREEN, true)])
         (map codes ["UP"; "up"; "Up"; "FULL"]%string
          ++ case_variants (codes "up") ++ case_variants (codes "full")) /\
  Forall (fun w => colorize_line' w = [(w, CLR_RED, true)])
         (map codes ["DOWN"; "down"]%string ++ case_variants (codes "down")) /\
  colorize_line' (codes "swp1 is Up, swp2 is down")
  = [(codes "swp1", CLR_IFACE, false); (codes " is ", CLR_DEFAULT, false);
     (codes "Up", CLR_GREEN, true); (codes ", ", CLR_DEFAULT, false);
     (codes "swp2", CLR_IFACE, false); (codes " is ", CLR_DEFAULT, false);
     (codes "down", CLR_RED, true)] /\
  (forall c p, item_match' false c (IChar p) = (c =? p)%N) /\
  (forall c lo hi,
     item_match' false c (IRange lo hi) = ((lo <=? c) && (c <=? hi))%N) /\
  Forall (fun w => colorize_line' w = [(w, CLR_DEFAULT, false)])
         (map codes ["SWP1"; "gi1/0/1"; "VLAN10"; "loopback0"; "TVI-0/1";
                     "SW1#"; "INTERFACE"; "Router bgp"; "ups"; "downs";
                     "aa:bb:cc:00:24:gg"]%string) /\
  Forall (fun w => colorize_line' w = [(w, CLR_IFACE, false)])
         (map codes ["swp1"; "Gi1/0/1"; "Vlan10"; "Loopback0"; "tvi-0/1"]%string) /\
  Forall (fun w => colorize_line' w = [(w, CLR_MAC, false)])
         (map codes ["aa:bb:cc:00:24:00"; "AA:BB:CC:00:24:00";
                     "aabb.cc00.2400"; "AABB.CC00.2400"]%string).
Proof.
  split; [reflexivity|].
  split; [each_line|].
  split; [each_line|].
  split; [vm_compute; reflexivity|].
  split; [intros c p; simpl; apply orb_false_r|].
  split; [intros c lo hi; simpl; apply orb_false_r|].
  split; [each_line|].
  split; each_line.
Qed.

(** C6. The allow-list: on [aa:bb:cc:00:24:00 CA 1151] the address is one
    MAC segment and the rest, [1151] included, one default segment; the four
    numbers 401151, 401152, 401153 and 50101 come out in the VNI colour, and
    other numbers, among them the neighbours of the four and numbers that
    contain one of them, do not; on any line at all, a segment in the VNI
    colour spells one of the four numbers. *)
Theorem vni_allow_list :
  colorize_line' (codes "aa:bb:cc:00:24:00 CA 1151")
  = [(codes "aa:bb:cc:00:24:00", CLR_MAC, false);
     (codes " CA 1151", CLR_DEFAULT, false)] /\
  Forall (fun w => colorize_line' w = [(w, CLR_VNI, false)])
         (map codes ["401151"; "401152"; "401153"; "50101"]%string) /\
  Forall (fun w => colorize_line' w = [(w, CLR_DEFAULT, false)])
         (map codes ["1151"; "401150"; "401154"; "50100"; "50102"; "4011511";
                     "1401151"; "501010"; "12345"; "401"; "0"]%string) /\
  (forall line text bold,
     In (text, CLR_VNI, bold) (colorize_line' line) ->
     In text (map codes ["401151"; "401152"; "401153"; "50101"]%string)).
Proof.
  split; [vm_compute; reflexivity|].
  split; [each_line|].
  split; [each_line|].
  intros line text bold; apply vni_segments.
Qed.

(** C7. The span of a candidate: the candidates collected for a line are
    exactly, for each match of each pattern, the range of group 1 when the
    group took part in the match and the range of the whole match when it
    did not, with the colour and weight of the pattern.  The keyword pattern
    matches [  interface] from offset 0 and contributes the range 2 to 11 of
    its group, so that the leading blanks stay a default segment; a pattern
    without a group contributes the range of its match. *)
Theorem candidate_span_is_group_span :
  (forall (patterns : list pattern) (line : str) (c : cand),
     In c (collect_matches' patterns line) <->
     exists re color bold m,
       In (re, color, bold) patterns /\ In m (finditer' re line) /\
       c = match m_group1 m with
           | Some (s, e) => (s, e, color, bold)
           | None => (m_start m, m_end m, color, bold)
           end) /\
  finditer' (re_compile "^\s*(router\s+(?:ospf|bgp)|interface|neighbor|address-family|l2vpn|vlan\s+configuration|member|nv\s+set)\b"
                        re_keyword false)
            (codes "  interface Gi1/0/1")
  = [mkMatch 0 11 (Some (2, 11))] /\
  colorize_line' (codes "  interface Gi1/0/1")
  = [(codes "  ", CLR_DEFAULT, false); (codes "interface", CLR_KEYWORD, true);
     (codes " ", CLR_DEFAULT, false); (codes "Gi1/0/1", CLR_IFACE, false)] /\
  finditer' (re_compile "up" (lit "up") false) (codes "is up")
  = [mkMatch 3 5 None] /\
  collect_matches' [(re_compile "up" (lit "up") false, CLR_GREEN, true)]
                   (codes "is up")
  = [(3, 5, CLR_GREEN, true)].
Proof.
  split.
  - intros patterns line c; unfold collect_matches; rewrite in_flat_map; split.
    + intros ([[re color] bold] & Hp & Hc); simpl in Hc.
      apply in_map_iff in Hc as (m & <- & Hm).
      exists re, color, bold, m; repeat split; auto.
      unfold cand_of, span_of; destruct (m_group1 m) as [[s e]|]; reflexivity.
    + intros (re & color & bold & m & Hp & Hm & ->).
      exists (re, color, bold); split; [exact Hp|]; simpl.
      apply in_map_iff; exists m; split; [|exact Hm].
      unfold cand_of, span_of; destruct (m_group1 m) as [[s e]|]; reflexivity.
  - repeat split; vm_compute; reflexivity.
Qed.

End Scenarios.

(** ** Properties of the save loop *)

Section SaveLoopFacts.

Variable base_name : string.
Variable doc_save : string -> option exn.
Variable getsize : string -> N + exn.

Local Abbreviation save_loop' := (save_loop base_name doc_save).
Local Abbreviation path_of' := (path_of base_name).

(** The loop goes through the candidates that raise [PermissionError] and
    ends at the first one that does anything else, with what that one did. *)
Lemma save_loop_first_other (locked : list string) (suffix : string)
    (rest : list string) : forall st,
  Forall (fun s => doc_save (path_of' s) = Some PermissionError) locked ->
  doc_save (path_of' suffix) <> Some PermissionError ->
  save_loop' (locked ++ suffix :: rest) st
  = (mkTail (Some (path_of' suffix))
            (trace st ++ map Save (map path_of' (locked ++ [suffix]))),
     doc_save (path_of' suffix)).
Proof.
  induction locked as [|s locked IH]; intros st Hlocked Hother; simpl.
  - destruct (doc_save (path_of' suffix)) as [[|name]|]; try reflexivity.
    congruence.
  - inversion Hlocked as [|? ? Hs Hrest]; subst; rewrite Hs.
    rewrite IH by assumption; simpl; rewrite <- app_assoc; reflexivity.
Qed.

(** When every candidate raises [PermissionError] the loop runs out. *)
Lemma save_loop_all_locked (todo : list string) : forall st,
  todo <> [] ->
  Forall (fun s => doc_save (path_of' s) = Some PermissionError) todo ->
  save_loop' todo st
  = (mkTail (Some (path_of' (last todo EmptyString)))
            (trace st ++ map Save (map path_of' todo)),
     None).
Proof.
  induction todo as [|s todo IH]; intros st Hne Hall; [congruence|].
  inversion Hall as [|? ? Hs Hrest]; subst; simpl save_loop; rewrite Hs.
  destruct todo as [|s' todo'].
  - reflexivity.
  - rewrite IH by (assumption || discriminate).
    simpl; rewrite <- app_assoc; reflexivity.
Qed.

(** C9. The retry: the candidates are [base_v3.docx], [base_v3a.docx] and
    [base_v3b.docx], in this order.  When the candidates before one of them
    raise [PermissionError] and that one does not, [doc.save] has been
    called on those candidates and on that one, in order, and on no later
    one; [output_path] is that candidate; the loop ends normally when the
    save returned, and with the exception, uncaught, when the save raised
    another one, in which case nothing is printed. *)
Theorem save_loop_retries (locked : list string) (suffix : string)
    (rest : list string) :
  suffixes = locked ++ suffix :: rest ->
  Forall (fun s => doc_save (path_of' s) = Some PermissionError) locked ->
  doc_save (path_of' suffix) <> Some PermissionError ->
  suffixes = ["_v3"; "_v3a"; "_v3b"]%string /\
  save_loop' suffixes (mkTail None [])
  = (mkTail (Some (path_of' suffix))
            (map Save (map path_of' (locked ++ [suffix]))),
     doc_save (path_of' suffix)) /\
  (forall e,
     doc_save (path_of' suffix) = Some e ->
     save_and_report base_name doc_save getsize
     = (mkTail (Some (path_of' suffix))
               (map Save (map path_of' (locked ++ [suffix]))),
        Some e)).
Proof.
  intros Heq Hlocked Hother; split; [reflexivity|].
  assert (Hloop : save_loop' suffixes (mkTail None [])
                  = (mkTail (Some (path_of' suffix))
                            (map Save (map path_of' (locked ++ [suffix]))),
                     doc_save (path_of' suffix))).
  { rewrite Heq; apply (save_loop_first_other locked suffix rest (mkTail None []));
      assumption. }
  split; [exact Hloop|].
  intros e He; unfold save_and_report; rewrite Hloop, He; reflexivity.
Qed.

(** C10. The silent failure: when all three saves raise [PermissionError]
    the loop ends without an exception, having tried the three candidates;
    [output_path] is still the last candidate, [base_v3b.docx], and the
    script goes on to print that the document was saved there. *)
Theorem save_loop_exhausted :
  Forall (fun s => doc_save (path_of' s) = Some PermissionError) suffixes ->
  save_loop' suffixes (mkTail None [])
  = (mkTail (Some (path_of' "_v3b"))
            [Save (path_of' "_v3"); Save (path_of' "_v3a");
             Save (path_of' "_v3b")],
     None) /\
  exists more,
    trace (fst (save_and_report base_name doc_save getsize))
    = [Save (path_of' "_v3"); Save (path_of' "_v3a"); Save (path_of' "_v3b");
       Print ("Word document saved: " ++ path_of' "_v3b")] ++ more.
Proof.
  intros Hall.
  assert (Hloop : save_loop' suffixes (mkTail None [])
                  = (mkTail (Some (path_of' "_v3b"))
                            [Save (path_of' "_v3"); Save (path_of' "_v3a");
                             Save (path_of' "_v3b")],
                     None)).
  { rewrite (save_loop_all_locked suffixes (mkTail None []));
      [reflexivity|discriminate|exact Hall]. }
  split; [exact Hloop|].
  unfold save_and_report; rewrite Hloop; unfold report; simpl.
  destruct (getsize (path_of' "_v3b")) as [n|e]; simpl; eexists; reflexivity.
Qed.

End SaveLoopFacts.

(** ** The statements with hypotheses, at concrete inputs *)

(** C3 on a comment that holds an address, and on a [!] comment. *)
Lemma colorize_line_comment_witness :
  (startswith (strip (codes "  # comment with 1.1.1.1 inside")) (chr_of "#")
   = true /\
   colorize_line ascii_only ascii_only (codes "  # comment with 1.1.1.1 inside")
   = [(codes "  # comment with 1.1.1.1 inside", CLR_COMMENT, false)]) /\
  (startswith (strip (codes "! interface Gi1/0/1 is UP")) (chr_of "!") = true /\
   colorize_line ascii_only ascii_only (codes "! interface Gi1/0/1 is UP")
   = [(codes "! interface Gi1/0/1 is UP", CLR_COMMENT, false)]).
Proof.
  split; (split; [reflexivity|]).
  - exact (proj1 (colorize_line_comment ascii_only ascii_only
                    (codes "  # comment with 1.1.1.1 inside")
                    (or_introl eq_refl))).
  - exact (proj1 (colorize_line_comment ascii_only ascii_only
                    (codes "! interface Gi1/0/1 is UP")
                    (or_intror eq_refl))).
Defined.

(** C9 with the first candidate locked and the second one free. *)
Lemma save_loop_retries_witness :
  save_loop "out"
            (fun p => if String.eqb p "out_v3.docx"
                      then Some PermissionError else None)
            suffixes (mkTail None [])
  = (mkTail (Some "out_v3a.docx"%string)
            [Save "out_v3.docx"; Save "out_v3a.docx"],
     None).
Proof.
  refine (proj1 (proj2 (save_loop_retries
                          "out"
                          (fun p => if String.eqb p "out_v3.docx"
                                    then Some PermissionError else None)
                          (fun _ => inl 0%N)
                          ["_v3"%string] "_v3a" ["_v3b"%string]
                          eq_refl _ _))).
  - constructor; [reflexivity|constructor].
  - discriminate.
Defined.

(** C10 with every candidate locked. *)
Lemma save_loop_exhausted_witness :
  save_loop "out" (fun _ => Some PermissionError) suffixes (mkTail None [])
  = (mkTail (Some "out_v3b.docx"%string)
            [Save "out_v3.docx"; Save "out_v3a.docx"; Save "out_v3b.docx"],
     None).
Proof.
  refine (proj1 (save_loop_exhausted "out" (fun _ => Some PermissionError)
                                     (fun _ => inl 0%N) _)).
  repeat constructor.
Defined.

(** * Further properties *)

(** ** How wide a match can be, and what it can hold *)

(** The least and the greatest number of characters a match of [r] takes
    ([None]: no bound). *)
Fixpoint min_len (r : regex) : nat :=
  match r with
  | Eps | Bol | Eol | WordB => 0
  | Chr _ => 1
  | Rep _ lo _ => lo
  | Seq r1 r2 => min_len r1 + min_len r2
  | Alt r1 r2 => Nat.min (min_len r1) (min_len r2)
  | Times n r1 => n * min_len r1
  | Group r1 => min_len r1
  end.

Fixpoint max_len (r : regex) : option nat :=
  match r with
  | Eps | Bol | Eol | WordB => Some 0
  | Chr _ => Some 1
  | Rep _ _ hi => hi
  | Seq r1 r2 =>
      match max_len r1, max_len r2 with
      | Some a, Some b => Some (a + b)
      | _, _ => None
      end
  | Alt r1 r2 =>
      match max_len r1, max_len r2 with
      | Some a, Some b => Some (Nat.max a b)
      | _, _ => None
      end
  | Times n r1 => option_map (Nat.mul n) (max_len r1)
  | Group r1 => max_len r1
  end.

(** [r] takes between [lo] and [hi] characters. *)
Definition width_within (lo hi : nat) (r : regex) : bool :=
  (lo <=? min_len r)
  && match max_len r with Some m => m <=? hi | None => false end.

(** Every capturing group of [r] takes between [lo] and [hi] characters. *)
Fixpoint groups_within (lo hi : nat) (r : regex) : bool :=
  match r with
  | Seq r1 r2 | Alt r1 r2 => groups_within lo hi r1 && groups_within lo hi r2
  | Times _ r1 => groups_within lo hi r1
  | Group r1 => width_within lo hi r1 && groups_within lo hi r1
  | Eps | Chr _ | Rep _ _ _ | Bol | Eol | WordB => true
  end.

Definition grp_within (lo hi : nat) (st : mstate) : Prop :=
  match m_grp st with
  | Some (a, b) => a + lo <= b /\ b <= a + hi
  | None => True
  end.

Lemma run_length_cap (f : char -> bool) (l : str) : forall n,
  run_length f l (Some n) <= n.
Proof.
  induction l as [|c l IH]; intros n; simpl; [lia|].
  destruct n as [|n]; [lia|].
  destruct (f c); [|lia].
  specialize (IH n); simpl; lia.
Qed.

Lemma run_length_Forall (f : char -> bool) (l : str) : forall cap,
  Forall (fun c => f c = true) (firstn (run_length f l cap) l).
Proof.
  induction l as [|c l IH]; intros cap; simpl; [constructor|].
  destruct cap as [[|n]|]; simpl; try constructor;
    destruct (f c) eqn:E; simpl; constructor; auto.
Qed.

Lemma Forall_firstn_le {A : Type} (P : A -> Prop) (l : list A) : forall k n,
  k <= n -> Forall P (firstn n l) -> Forall P (firstn k l).
Proof.
  induction l as [|x l IH]; intros k n Hkn H.
  - rewrite firstn_nil; constructor.
  - destruct k as [|k]; [constructor|].
    destruct n as [|n]; [lia|].
    simpl in *; inversion H; subst; constructor; [assumption|].
    apply (IH k n); [lia|assumption].
Qed.

Section MatcherWidth.

Variable unicode_isdecimal : char -> bool.
Variable unicode_isalnum : char -> bool.
Variable ic : bool.
Variable line : str.

Local Abbreviation run' := (run unicode_isdecimal unicode_isalnum ic line).
Local Abbreviation class_match' :=
  (class_match unicode_isdecimal unicode_isalnum ic).

(** What a repetition takes: a number of characters within its bounds, all
    of them in the class. *)
Lemma run_rep_chars (cs : cset) (lo : nat) (hi : option nat) (st st' : mstate) :
  In st' (run' (Rep cs lo hi) st) ->
  exists k,
    st' = mkState (m_pos st + k) (m_grp st) /\ lo <= k /\
    (forall n, hi = Some n -> k <= n) /\
    Forall (fun c => class_match' cs c = true)
           (slice line (m_pos st) (m_pos st + k)).
Proof.
  simpl; rewrite in_map_iff; intros (k & <- & Hk).
  apply in_countdown in Hk.
  exists k; split; [reflexivity|split; [lia|split]].
  - intros n ->.
    pose proof (run_length_cap (class_match' cs) (skipn (m_pos st) line) n).
    lia.
  - unfold slice; replace (m_pos st + k - m_pos st) with k by lia.
    eapply Forall_firstn_le; [|apply run_length_Forall]; apply Hk.
Qed.

Lemma run_chr_char (cs : cset) (st st' : mstate) :
  In st' (run' (Chr cs) st) ->
  exists c,
    nth_error line (m_pos st) = Some c /\ class_match' cs c = true /\
    st' = mkState (S (m_pos st)) (m_grp st).
Proof.
  simpl; destruct (nth_error line (m_pos st)) as [c|] eqn:E; [|intros []].
  destruct (class_match' cs c) eqn:Ec; [|intros []].
  intros [<-|[]]; exists c; auto.
Qed.

Lemma run_width (r : regex) : forall st st',
  In st' (run' r st) ->
  m_pos st + min_len r <= m_pos st' /\
  forall m, max_len r = Some m -> m_pos st' <= m_pos st + m.
Proof.
  induction r as [|cs|cs lo hi|r1 IH1 r2 IH2|r1 IH1 r2 IH2|n r IH|r IH| | |];
    intros st st' H; simpl min_len; simpl max_len.
  - destruct H as [<-|[]]; split; [lia|intros m [= <-]; lia].
  - apply run_chr_inv in H as [-> _]; simpl.
    split; [lia|intros m [= <-]; lia].
  - apply run_rep_chars in H as (k & -> & Hlo & Hhi & _); simpl.
    split; [lia|intros m Hm; specialize (Hhi m Hm); lia].
  - simpl in H; apply in_flat_map in H as (s1 & H1 & H2).
    apply IH1 in H1 as [Ha1 Hb1]; apply IH2 in H2 as [Ha2 Hb2].
    split; [lia|].
    destruct (max_len r1) as [a|], (max_len r2) as [b|]; try discriminate.
    intros m [= <-]; specialize (Hb1 a eq_refl); specialize (Hb2 b eq_refl); lia.
  - simpl in H; apply in_app_or in H as [H|H];
      [apply IH1 in H as [Ha Hb]|apply IH2 in H as [Ha Hb]];
      (split; [lia|]);
      destruct (max_len r1) as [a|], (max_len r2) as [b|]; try discriminate;
      intros m [= <-]; [specialize (Hb a eq_refl)|specialize (Hb b eq_refl)];
      lia.
  - revert st st' H; induction n as [|n IHn]; intros st st' H.
    + destruct H as [<-|[]]; split; [lia|].
      destruct (max_len r); simpl; [intros m [= <-]; lia|discriminate].
    + rewrite run_times_succ in H; apply in_flat_map in H as (s1 & H1 & H2).
      apply IH in H1 as [Ha1 Hb1]; apply IHn in H2 as [Ha2 Hb2].
      split; [lia|].
      destruct (max_len r) as [a|]; simpl in *; [|discriminate].
      intros m [= <-].
      specialize (Hb1 a eq_refl); specialize (Hb2 (n * a) eq_refl); lia.
  - simpl in H; apply in_map_iff in H as (s1 & <- & H1); simpl; auto.
  - guard_inv H; split; [lia|intros m [= <-]; lia].
  - guard_inv H; split; [lia|intros m [= <-]; lia].
  - guard_inv H; split; [lia|intros m [= <-]; lia].
Qed.

Lemma run_group_within (lo hi : nat) (r : regex) : forall st st',
  groups_within lo hi r = true -> grp_within lo hi st ->
  In st' (run' r st) -> grp_within lo hi st'.
Proof.
  induction r as [|cs|cs l h|r1 IH1 r2 IH2|r1 IH1 r2 IH2|n r IH|r IH| | |];
    intros st st' Hg Hst H; simpl in Hg.
  - destruct H as [<-|[]]; assumption.
  - apply run_chr_inv in H as [-> _]; exact Hst.
  - apply run_rep_inv in H as (k & -> & _); exact Hst.
  - apply andb_true_iff in Hg as [Hg1 Hg2].
    simpl in H; apply in_flat_map in H as (s1 & H1 & H2).
    apply (IH2 s1 st' Hg2); [apply (IH1 st s1 Hg1 Hst H1)|exact H2].
  - apply andb_true_iff in Hg as [Hg1 Hg2].
    simpl in H; apply in_app_or in H as [H|H]; eauto.
  - revert st st' Hst H; induction n as [|n IHn]; intros st st' Hst H.
    + destruct H as [<-|[]]; assumption.
    + rewrite run_times_succ in H; apply in_flat_map in H as (s1 & H1 & H2).
      apply (IHn s1 st'); [apply (IH st s1 Hg Hst H1)|exact H2].
  - apply andb_true_iff in Hg as [Hw Hg].
    simpl in H; apply in_map_iff in H as (s1 & <- & H1).
    unfold grp_within; simpl.
    apply run_width in H1 as [Ha Hb].
    unfold width_within in Hw; apply andb_true_iff in Hw as [Hlo Hhi].
    apply Nat.leb_le in Hlo.
    destruct (max_len r) as [m|]; [|discriminate].
    apply Nat.leb_le in Hhi; specialize (Hb m eq_refl); lia.
  - guard_inv H; assumption.
  - guard_inv H; assumption.
  - guard_inv H; assumption.
Qed.

End MatcherWidth.

Section MatcherAlphabet.

Variable unicode_isdecimal : char -> bool.
Variable unicode_isalnum : char -> bool.
Variable ic : bool.
Variable line : str.
Variable P : char -> bool.

Local Abbreviation run' := (run unicode_isdecimal unicode_isalnum ic line).
Local Abbreviation class_match' :=
  (class_match unicode_isdecimal unicode_isalnum ic).

(** Every class and literal of [r] lies within [P]. *)
Fixpoint classes_within (r : regex) : Prop :=
  match r with
  | Chr cs | Rep cs _ _ => forall c, class_match' cs c = true -> P c = true
  | Seq r1 r2 | Alt r1 r2 => classes_within r1 /\ classes_within r2
  | Times _ r1 | Group r1 => classes_within r1
  | Eps | Bol | Eol | WordB => True
  end.

Definition grp_alphabet (st : mstate) : Prop :=
  match m_grp st with
  | Some (a, b) => Forall (fun c => P c = true) (slice line a b)
  | None => True
  end.

(** The text of a match is made of characters of [P]. *)
Lemma run_alphabet (r : regex) : forall st st',
  classes_within r -> In st' (run' r st) ->
  Forall (fun c => P c = true) (slice line (m_pos st) (m_pos st')).
Proof.
  induction r as [|cs|cs lo hi|r1 IH1 r2 IH2|r1 IH1 r2 IH2|n r IH|r IH| | |];
    intros st st' Hc H; simpl in Hc.
  - destruct H as [<-|[]]; rewrite slice_empty; constructor.
  - apply run_chr_char in H as (c & Hn & Hm & ->); simpl.
    rewrite (slice_nth line _ _ Hn); constructor; auto.
  - apply run_rep_chars in H as (k & -> & _ & _ & Hall); simpl.
    eapply Forall_impl; [|exact Hall]; auto.
  - destruct Hc as [Hc1 Hc2].
    simpl in H; apply in_flat_map in H as (s1 & H1 & H2).
    pose proof (run_le _ _ _ _ _ _ _ H1); pose proof (run_le _ _ _ _ _ _ _ H2).
    rewrite <- (slice_app line (m_pos st) (m_pos s1) (m_pos st')) by lia.
    apply Forall_app; split; [apply IH1|apply IH2]; assumption.
  - destruct Hc as [Hc1 Hc2].
    simpl in H; apply in_app_or in H as [H|H]; auto.
  - revert st st' H; induction n as [|n IHn]; intros st st' H.
    + destruct H as [<-|[]]; rewrite slice_empty; constructor.
    + rewrite run_times_succ in H; apply in_flat_map in H as (s1 & H1 & H2).
      pose proof (run_le _ _ _ _ _ _ _ H1);
        pose proof (run_le _ _ _ _ _ _ _ H2).
      rewrite <- (slice_app line (m_pos st) (m_pos s1) (m_pos st')) by lia.
      apply Forall_app; split; [apply IH|apply IHn]; assumption.
  - simpl in H; apply in_map_iff in H as (s1 & <- & H1); simpl; auto.
  - guard_inv H; rewrite slice_empty; constructor.
  - guard_inv H; rewrite slice_empty; constructor.
  - guard_inv H; rewrite slice_empty; constructor.
Qed.

Lemma run_group_alphabet (r : regex) : forall st st',
  classes_within r -> grp_alphabet st -> In st' (run' r st) -> grp_alphabet st'.
Proof.
  induction r as [|cs|cs lo hi|r1 IH1 r2 IH2|r1 IH1 r2 IH2|n r IH|r IH| | |];
    intros st st' Hc Hst H; simpl in Hc.
  - destruct H as [<-|[]]; assumption.
  - apply run_chr_inv in H as [-> _]; exact Hst.
  - apply run_rep_inv in H as (k & -> & _); exact Hst.
  - destruct Hc as [Hc1 Hc2].
    simpl in H; apply in_flat_map in H as (s1 & H1 & H2).
    apply (IH2 s1 st' Hc2); [apply (IH1 st s1 Hc1 Hst H1)|exact H2].
  - destruct Hc as [Hc1 Hc2].
    simpl in H; apply in_app_or in H as [H|H]; eauto.
  - revert st st' Hst H; induction n as [|n IHn]; intros st st' Hst H.
    + destruct H as [<-|[]]; assumption.
    + rewrite run_times_succ in H; apply in_flat_map in H as (s1 & H1 & H2).
      apply (IHn s1 st'); [apply (IH st s1 Hc Hst H1)|exact H2].
  - simpl in H; apply in_map_iff in H as (s1 & <- & H1).
    unfold grp_alphabet; simpl; apply (run_alphabet r); assumption.
  - guard_inv H; assumption.
  - guard_inv H; assumption.
  - guard_inv H; assumption.
Qed.

Lemma classes_within_seqs (rs : list regex) :
  Forall classes_within rs -> classes_within (seqs rs).
Proof. induction 1; simpl; auto. Qed.

Lemma classes_within_alts (rs : list regex) :
  Forall classes_within rs -> classes_within (alts rs).
Proof.
  induction 1 as [|r rs Hr Hrs IH]; simpl; [discriminate|].
  destruct rs; [exact Hr|split; [exact Hr|exact IH]].
Qed.

End MatcherAlphabet.

(** ** The candidates of a pattern: width and alphabet *)

Section CandidateShape.

Variable unicode_isdecimal : char -> bool.
Variable unicode_isalnum : char -> bool.
Variable line : str.

Local Abbreviation finditer' := (finditer unicode_isdecimal unicode_isalnum).
Local Abbreviation match_at' := (match_at unicode_isdecimal unicode_isalnum).

(** What holds of every state a pattern can end in holds of every match
    that [finditer] reports. *)
Lemma finditer_Forall (c : compiled) (Q : nat -> mstate -> Prop) :
  (forall p st,
     p <= length line ->
     In st (run unicode_isdecimal unicode_isalnum (re_ignorecase c) line
                (re_ast c) (mkState p None)) ->
     Q p st) ->
  Forall (fun m => Q (m_start m) (mkState (m_end m) (m_group1 m)))
         (finditer' c line).
Proof.
  intros HQ; apply scan_Forall; intros b p m Hp; unfold match_at.
  destruct (find _ _) as [st|] eqn:E; [|discriminate].
  intros [= <-]; apply find_some in E as [Hin _]; simpl.
  apply in_seq in Hp; destruct st as [pos grp]; apply HQ; [lia|exact Hin].
Qed.

(** The width of a candidate of a pattern whose group and whose whole
    expression take between [lo] and [hi] characters. *)
Lemma pattern_matches_width (lo hi : nat) (p : pattern) (c : cand) :
  width_within lo hi (re_ast (fst (fst p))) = true ->
  groups_within lo hi (re_ast (fst (fst p))) = true ->
  In c (pattern_matches unicode_isdecimal unicode_isalnum line p) ->
  cand_start c + lo <= cand_end c /\ cand_end c <= cand_start c + hi.
Proof.
  destruct p as [[re color] bold]; simpl; intros Hw Hg Hin.
  apply in_map_iff in Hin as (m & <- & Hm).
  pose proof (finditer_Forall re
                (fun p st => (p + lo <= m_pos st /\ m_pos st <= p + hi) /\
                             grp_within lo hi st)) as Hall.
  rewrite Forall_forall in Hall.
  destruct (Hall) with (x := m) as [Hfull Hgrp]; [|exact Hm|].
  - intros p st _ Hst; split.
    + apply run_width in Hst as [Ha Hb]; simpl in *.
      unfold width_within in Hw; apply andb_true_iff in Hw as [Hlo Hhi].
      apply Nat.leb_le in Hlo.
      destruct (max_len (re_ast re)) as [mx|]; [|discriminate].
      apply Nat.leb_le in Hhi; specialize (Hb mx eq_refl); lia.
    + eapply run_group_within; [exact Hg| |exact Hst]; exact I.
  - unfold grp_within in Hgrp; simpl in *.
    unfold cand_of, span_of, cand_start, cand_end.
    destruct (m_group1 m) as [[a b]|]; simpl; lia.
Qed.

(** The text of a candidate of a pattern whose classes lie within [P]. *)
Lemma pattern_matches_alphabet (P : char -> bool) (p : pattern) (c : cand) :
  classes_within unicode_isdecimal unicode_isalnum
                 (re_ignorecase (fst (fst p))) P (re_ast (fst (fst p))) ->
  In c (pattern_matches unicode_isdecimal unicode_isalnum line p) ->
  Forall (fun x => P x = true) (slice line (cand_start c) (cand_end c)).
Proof.
  destruct p as [[re color] bold]; simpl; intros Hc Hin.
  apply in_map_iff in Hin as (m & <- & Hm).
  pose proof (finditer_Forall re
                (fun p st =>
                   Forall (fun x => P x = true) (slice line p (m_pos st)) /\
                   grp_alphabet line P st)) as Hall.
  rewrite Forall_forall in Hall.
  destruct (Hall) with (x := m) as [Hfull Hgrp]; [|exact Hm|].
  - intros p st _ Hst; split.
    + apply (run_alphabet _ _ _ _ _ _ _ _ Hc Hst).
    + eapply run_group_alphabet; [exact Hc| |exact Hst]; exact I.
  - unfold grp_alphabet in Hgrp; simpl in *.
    unfold cand_of, span_of, cand_start, cand_end.
    destruct (m_group1 m) as [[a b]|]; simpl; assumption.
Qed.

End CandidateShape.

(** ** Classes compared by their members *)

Definition citem_eqb (a b : citem) : bool :=
  match a, b with
  | IChar x, IChar y => (x =? y)%N
  | IRange l h, IRange l' h' => ((l =? l') && (h =? h'))%N
  | IDigit, IDigit | IWord, IWord | ISpace, ISpace | IAny, IAny => true
  | _, _ => false
  end.

(** Every member of [cs] is a member of [A]. *)
Definition cset_sub (cs A : cset) : bool :=
  forallb (fun i => existsb (citem_eqb i) A) cs.

(** Every class and literal of [r] is made of members of [A]. *)
Fixpoint classes_in (A : cset) (r : regex) : bool :=
  match r with
  | Chr cs | Rep cs _ _ => cset_sub cs A
  | Seq r1 r2 | Alt r1 r2 => classes_in A r1 && classes_in A r2
  | Times _ r1 | Group r1 => classes_in A r1
  | Eps | Bol | Eol | WordB => true
  end.

Lemma citem_eqb_eq (a b : citem) : citem_eqb a b = true -> a = b.
Proof.
  destruct a, b; simpl; try discriminate; try reflexivity.
  - intros H; apply N.eqb_eq in H; congruence.
  - intros H; apply andb_true_iff in H as [H1 H2].
    apply N.eqb_eq in H1, H2; congruence.
Qed.

Lemma cset_sub_match (ud ua : char -> bool) (ic : bool) (cs A : cset) (c : char) :
  cset_sub cs A = true ->
  class_match ud ua ic cs c = true -> class_match ud ua ic A c = true.
Proof.
  unfold cset_sub, class_match; rewrite forallb_forall.
  intros Hsub H; apply existsb_exists in H as (i & Hi & Hm).
  specialize (Hsub i Hi); apply existsb_exists in Hsub as (j & Hj & Heq).
  apply citem_eqb_eq in Heq; subst j.
  apply existsb_exists; exists i; auto.
Qed.

Lemma classes_in_within (ud ua : char -> bool) (ic : bool) (A : cset) (r : regex) :
  classes_in A r = true ->
  classes_within ud ua ic (class_match ud ua ic A) r.
Proof.
  induction r; simpl; intros H; auto;
    try (apply andb_true_iff in H as [H1 H2]; split; auto);
    intros c; apply cset_sub_match; exact H.
Qed.

(** ** Where the colours of the segments come from *)

(** The characters of an address in colon or dot notation, and of an
    address with a mask. *)
Definition mac_alphabet : cset := hex ++ set_of ":.".
Definition ip_alphabet : cset := IDigit :: set_of "./".

Lemma build_segments_origin (line : str) (filtered : list cand) :
  forall pos text color bold,
    In (text, color, bold) (build_segments line filtered pos) ->
    (color = CLR_DEFAULT /\ bold = false) \/
    exists s e, In (s, e, color, bold) filtered /\ text = slice line s e.
Proof.
  induction filtered as [|[[[s e] c] b] rest IH]; intros pos text color bold;
    simpl.
  - destruct (pos <? length line); [|intros []].
    intros [[= _ <- <-]|[]]; left; auto.
  - intros H; apply in_app_or in H as [H|[H|H]].
    + destruct (pos <? s); [|destruct H].
      destruct H as [[= _ <- <-]|[]]; left; auto.
    + injection H as <- <- <-; right; exists s, e; auto.
    + apply IH in H as [H|(s' & e' & H & ->)]; [left; exact H|].
      right; exists s', e'; auto.
Qed.

(** ** Stripping *)

Lemma lstrip_spaces (ws l : str) :
  Forall (fun c => isspace c = true) ws -> lstrip (ws ++ l) = lstrip l.
Proof. induction 1 as [|c ws Hc _ IH]; simpl; [reflexivity|now rewrite Hc]. Qed.

Lemma lstrip_snoc (l : str) (c : char) :
  isspace c = false -> exists l', lstrip (l ++ [c]) = l' ++ [c].
Proof.
  intros Hc; induction l as [|x l IH]; simpl.
  - rewrite Hc; exists []; reflexivity.
  - destruct (isspace x); [exact IH|exists (x :: l); reflexivity].
Qed.

(** A line made of blanks, then a character that is not a blank, then
    anything: stripped, it starts with that character. *)
Lemma strip_starts (ws rest : str) (c : char) :
  Forall (fun x => isspace x = true) ws -> isspace c = false ->
  startswith (strip (ws ++ c :: rest)) c = true.
Proof.
  intros Hws Hc; unfold strip, rstrip.
  rewrite (lstrip_spaces ws (c :: rest) Hws); simpl lstrip; rewrite Hc.
  simpl rev; destruct (lstrip_snoc (rev rest) c Hc) as (l' & ->).
  rewrite rev_app_distr; simpl; apply N.eqb_refl.
Qed.

Lemma slice_length (line : str) (s e : nat) :
  e <= length line -> length (slice line s e) = e - s.
Proof.
  intros He; unfold slice; rewrite length_firstn, length_skipn; lia.
Qed.

Lemma slice_prefix (line : str) (k : nat) : slice line 0 k = firstn k line.
Proof. unfold slice; simpl; now rewrite Nat.sub_0_r. Qed.

(** ** Taking a match apart *)

Section MatcherInversion.

Variable unicode_isdecimal : char -> bool.
Variable unicode_isalnum : char -> bool.
Variable ic : bool.
Variable line : str.

Local Abbreviation run' := (run unicode_isdecimal unicode_isalnum ic line).

Lemma run_seq_inv (r1 r2 : regex) (st st' : mstate) :
  In st' (run' (Seq r1 r2) st) ->
  exists s1, In s1 (run' r1 st) /\ In st' (run' r2 s1).
Proof. simpl; intros H; apply in_flat_map in H; exact H. Qed.

Lemma run_group_inv (r : regex) (st st' : mstate) :
  In st' (run' (Group r) st) ->
  exists s, In s (run' r st) /\
            st' = mkState (m_pos s) (Some (m_pos st, m_pos s)).
Proof.
  simpl; intros H; apply in_map_iff in H as (s & <- & Hs); exists s; auto.
Qed.

Lemma run_bol_inv (st st' : mstate) :
  In st' (run' Bol st) -> st' = st /\ m_pos st = 0.
Proof.
  simpl; destruct (m_pos st =? 0) eqn:E; [|intros []].
  intros [<-|[]]; apply Nat.eqb_eq in E; auto.
Qed.

End MatcherInversion.

Section SegmentOrigin.

Variable unicode_isdecimal : char -> bool.
Variable unicode_isalnum : char -> bool.

Local Abbreviation colorize_line' :=
  (colorize_line unicode_isdecimal unicode_isalnum).
Local Abbreviation pattern_matches' :=
  (pattern_matches unicode_isdecimal unicode_isalnum).
Local Abbreviation collect_matches' :=
  (collect_matches unicode_isdecimal unicode_isalnum).
Local Abbreviation kept_spans' :=
  (kept_spans unicode_isdecimal unicode_isalnum).
Local Abbreviation class_match' :=
  (class_match unicode_isdecimal unicode_isalnum false).

(** A segment of a line that is not a comment is in the default colour, or
    it is the slice of the line on a kept candidate of a row of the table,
    in the colour and weight of that row. *)
Lemma segment_origin (line : str) (text : str) (color : RGBColor) (bold : bool) :
  is_comment_line line = false ->
  In (text, color, bold) (colorize_line' line) ->
  (color = CLR_DEFAULT /\ bold = false) \/
  exists re c,
    In (re, color, bold) _SH_PATTERNS /\
    In c (pattern_matches' line (re, color, bold)) /\
    In c (kept_spans' _SH_PATTERNS line) /\
    cand_ok line c /\
    text = slice line (cand_start c) (cand_end c).
Proof.
  intros Hc H; unfold colorize_line in H.
  rewrite colorize_with_unfold in H by exact Hc.
  assert (Hin : (color = CLR_DEFAULT /\ bold = false) \/
                In (text, color, bold)
                   (build_segments line (kept_spans' _SH_PATTERNS line) 0)).
  { destruct (build_segments _ _ _);
      [destruct H as [[= _ <- <-]|[]]; left; auto|right; exact H]. }
  clear H; destruct Hin as [Hd|Hin]; [left; exact Hd|].
  apply build_segments_origin in Hin as [Hd|(s & e & Hkept & ->)];
    [left; exact Hd|right].
  assert (Hk : In (s, e, color, bold) (collect_matches' _SH_PATTERNS line)).
  { unfold kept_spans in Hkept; apply remove_overlaps_in in Hkept.
    apply (proj1 (sort_by_start_in _ _)) in Hkept; exact Hkept. }
  pose proof (collect_matches_ok unicode_isdecimal unicode_isalnum line
                _SH_PATTERNS SH_PATTERNS_well_formed) as Hok.
  rewrite Forall_forall in Hok; specialize (Hok _ Hk).
  unfold collect_matches in Hk; apply in_flat_map in Hk as (p & Hp & Hpc).
  destruct p as [[re color'] bold'].
  assert (Heq : color' = color /\ bold' = bold).
  { simpl in Hpc; apply in_map_iff in Hpc as (m & Hm & _).
    unfold cand_of in Hm; injection Hm as _ _ <- <-; auto. }
  destruct Heq as [-> ->].
  exists re, (s, e, color, bold); auto 6.
Qed.

(** A segment in a colour of the table comes from a kept candidate. *)
Lemma coloured_segment_origin (line : str) (text : str) (color : RGBColor)
    (bold : bool) :
  In (text, color, bold) (colorize_line' line) ->
  color <> CLR_COMMENT -> color <> CLR_DEFAULT ->
  exists re c,
    In (re, color, bold) _SH_PATTERNS /\
    In c (pattern_matches' line (re, color, bold)) /\
    In c (kept_spans' _SH_PATTERNS line) /\
    cand_ok line c /\
    text = slice line (cand_start c) (cand_end c).
Proof.
  intros H Hnc Hnd; destruct (is_comment_line line) eqn:Hc.
  - unfold colorize_line, colorize_with in H; rewrite Hc in H.
    destruct H as [[= _ <- _]|[]]; congruence.
  - apply segment_origin in H as [[Hd _]|H]; [congruence|exact H|exact Hc].
Qed.

(** When the patterns are run, the comment pattern finds nothing: a line it
    matches is a comment line, and those never reach the patterns. *)
Lemma comment_pattern_silent (src : string) (line : str) :
  is_comment_line line = false ->
  finditer unicode_isdecimal unicode_isalnum (re_compile src re_comment false)
           line = [].
Proof.
  intros Hc.
  pose proof (finditer_Forall unicode_isdecimal unicode_isalnum line
                (re_compile src re_comment false) (fun _ _ => False)) as Hall.
  destruct (finditer _ _ _ _) as [|m ms]; [reflexivity|exfalso].
  assert (Hf : Forall (fun _ : rmatch => False) (m :: ms)).
  { apply Hall; clear Hall; simpl re_ast; simpl re_ignorecase.
    intros p st _ H; unfold re_comment, seqs in H; simpl fold_right in H.
    apply run_seq_inv in H as (s1 & H1 & H).
    apply run_bol_inv in H1 as [-> Hp]; simpl in Hp; subst p.
    apply run_seq_inv in H as (s2 & H2 & _).
    apply run_group_inv in H2 as (s & H2 & _).
    apply run_seq_inv in H2 as (sa & Ha & H2).
    apply run_rep_chars in Ha as (k & -> & _ & _ & Hws); simpl in Hws.
    apply run_seq_inv in H2 as (sb & Hb & _).
    apply run_lit in Hb as (Hb & _); simpl m_pos in Hb.
    rewrite slice_prefix in Hws.
    assert (Hrest : exists rest, skipn k line = chr_of "#" :: rest).
    { unfold slice in Hb; destruct (skipn k line) as [|x rest].
      - rewrite firstn_nil in Hb; discriminate.
      - destruct (m_pos sb - k); [discriminate|].
        simpl in Hb; injection Hb as -> _; exists rest; reflexivity. }
    destruct Hrest as (rest & Hrest).
    assert (Hline : line = firstn k line ++ chr_of "#" :: rest).
    { rewrite <- Hrest; symmetry; apply firstn_skipn. }
    assert (Htrue : is_comment_line line = true).
    { unfold is_comment_line; rewrite Hline.
      rewrite strip_starts; [reflexivity| |reflexivity].
      eapply Forall_impl; [|exact Hws]; intros c Hm; simpl in Hm.
      now rewrite orb_false_r in Hm. }
    congruence. }
  inversion Hf; assumption.
Qed.

(** X1. The comment colour is never given to a part of a line: a
    comment-coloured segment only arises as the whole of a line whose
    stripped form starts with [#] or [!]; the comment pattern that heads the
    table never contributes a segment. *)
Theorem comment_colour_is_whole_line (line text : str) (bold : bool) :
  In (text, CLR_COMMENT, bold) (colorize_line' line) ->
  is_comment_line line = true /\ text = line /\ bold = false /\
  colorize_line' line = [(line, CLR_COMMENT, false)].
Proof.
  intros H; destruct (is_comment_line line) eqn:Hc.
  - unfold colorize_line, colorize_with in *; rewrite Hc in *.
    destruct H as [[= <- <-]|[]]; auto.
  - exfalso; apply segment_origin in H as [[Hd _]|H]; [discriminate| |exact Hc].
    destruct H as (re & c & Hp & Hin & _).
    simpl in Hp.
    repeat (destruct Hp as [Hp|Hp]; [try discriminate|]); [|destruct Hp].
    injection Hp as <-; simpl in Hin.
    rewrite comment_pattern_silent in Hin by exact Hc; destruct Hin.
Qed.

(** X2. Colour and weight go together: a segment is bold exactly when it is
    in the prompt colour, one of the two status colours or the keyword
    colour; default, comment, address, VNI and interface segments are never
    bold. *)
Theorem weight_follows_colour (line text : str) (color : RGBColor) (bold : bool) :
  In (text, color, bold) (colorize_line' line) ->
  (bold = true <-> In color [CLR_PROMPT; CLR_GREEN; CLR_RED; CLR_KEYWORD]).
Proof.
  assert (Hfalse : forall c : RGBColor,
             ~ In c [CLR_PROMPT; CLR_GREEN; CLR_RED; CLR_KEYWORD] ->
             (false = true <-> In c [CLR_PROMPT; CLR_GREEN; CLR_RED; CLR_KEYWORD])).
  { intros c Hn; split; [discriminate|intros Hin; destruct (Hn Hin)]. }
  assert (Htrue : forall c : RGBColor,
             In c [CLR_PROMPT; CLR_GREEN; CLR_RED; CLR_KEYWORD] ->
             (true = true <-> In c [CLR_PROMPT; CLR_GREEN; CLR_RED; CLR_KEYWORD])).
  { intros c Hin; split; auto. }
  intros H; destruct (is_comment_line line) eqn:Hc.
  - unfold colorize_line, colorize_with in H; rewrite Hc in H.
    destruct H as [[= _ <- <-]|[]]; apply Hfalse.
    simpl; intuition discriminate.
  - apply segment_origin in H as [[-> ->]|H]; [| |exact Hc].
    + apply Hfalse; simpl; intuition discriminate.
    + destruct H as (re & c & Hp & _); simpl in Hp.
      repeat (destruct Hp as [Hp|Hp];
              [injection Hp as _ <- <-;
               first [apply Htrue; simpl; auto 6
                     |apply Hfalse; simpl; intuition discriminate]|]).
      destruct Hp.
Qed.

(** X3. A segment in the MAC colour is an address in full: 17 characters
    in colon notation or 14 in dot notation, all of them hexadecimal digits,
    colons or dots. *)
Theorem mac_segment_shape (line text : str) (bold : bool) :
  In (text, CLR_MAC, bold) (colorize_line' line) ->
  (length text = 17 \/ length text = 14) /\
  Forall (fun c => class_match' mac_alphabet c = true) text.
Proof.
  intros H.
  apply coloured_segment_origin in H
    as (re & c & Hp & Hin & _ & [_ Hend] & ->); try discriminate.
  rewrite slice_length by exact Hend.
  simpl in Hp.
  repeat (destruct Hp as [Hp|Hp]; [try discriminate|]); [| |destruct Hp];
    injection Hp as <- <-.
  - split.
    + left.
      apply (pattern_matches_width unicode_isdecimal unicode_isalnum line 17 17)
        in Hin; [lia|reflexivity|reflexivity].
    + apply (pattern_matches_alphabet unicode_isdecimal unicode_isalnum line
               (class_match' mac_alphabet)) in Hin; [exact Hin|].
      apply classes_in_within; reflexivity.
  - split.
    + right.
      apply (pattern_matches_width unicode_isdecimal unicode_isalnum line 14 14)
        in Hin; [lia|reflexivity|reflexivity].
    + apply (pattern_matches_alphabet unicode_isdecimal unicode_isalnum line
               (class_match' mac_alphabet)) in Hin; [exact Hin|].
      apply classes_in_within; reflexivity.
Qed.

(** X4. A segment in the IP colour has between 7 and 18 characters (four
    groups of one to three digits, three dots, and at most a slash with two
    digits), all of them decimal digits, dots or slashes. *)
Theorem ip_segment_shape (line text : str) (bold : bool) :
  In (text, CLR_IP, bold) (colorize_line' line) ->
  7 <= length text <= 18 /\
  Forall (fun c => class_match' ip_alphabet c = true) text.
Proof.
  intros H.
  apply coloured_segment_origin in H
    as (re & c & Hp & Hin & _ & [_ Hend] & ->); try discriminate.
  rewrite slice_length by exact Hend.
  simpl in Hp.
  repeat (destruct Hp as [Hp|Hp]; [try discriminate|]); [|destruct Hp];
    injection Hp as <- <-.
  split.
  - apply (pattern_matches_width unicode_isdecimal unicode_isalnum line 7 18)
      in Hin; [lia|reflexivity|reflexivity].
  - apply (pattern_matches_alphabet unicode_isdecimal unicode_isalnum line
             (class_match' ip_alphabet)) in Hin; [exact Hin|].
    apply classes_in_within; reflexivity.
Qed.

(** The candidates of a pattern that is anchored at the start of the line
    and lets blanks go before its group start after blanks only. *)
Lemma anchored_candidate_prefix (src : string) (g : regex) (line : str)
    (color : RGBColor) (bold : bool) (c : cand) :
  In c (pattern_matches'
          line
          (re_compile src (seqs [Bol; star [ISpace]; Group g; WordB]) false,
           color, bold)) ->
  Forall (fun x => isspace x = true) (firstn (cand_start c) line).
Proof.
  intros Hin; unfold pattern_matches in Hin; cbv beta iota in Hin.
  apply in_map_iff in Hin as (m & <- & Hm).
  assert (Hall : Forall
                   (fun m =>
                      match m_group1 m with
                      | Some (a, _) =>
                          Forall (fun x => isspace x = true) (firstn a line)
                      | None => False
                      end)
                   (finditer unicode_isdecimal unicode_isalnum
                      (re_compile src
                         (seqs [Bol; star [ISpace]; Group g; WordB]) false)
                      line)).
  { apply (finditer_Forall unicode_isdecimal unicode_isalnum line
             (re_compile src (seqs [Bol; star [ISpace]; Group g; WordB]) false)
             (fun _ st =>
                match m_grp st with
                | Some (a, _) =>
                    Forall (fun x => isspace x = true) (firstn a line)
                | None => False
                end)).
    intros p st _ H; cbn [re_ast re_ignorecase] in H.
    unfold seqs in H; simpl fold_right in H.
    apply run_seq_inv in H as (s1 & H1 & H).
    apply run_bol_inv in H1 as [-> Hp]; simpl in Hp; subst p.
    apply run_seq_inv in H as (s2 & H2 & H).
    apply run_rep_chars in H2 as (k & -> & _ & _ & Hws); simpl in Hws.
    apply run_seq_inv in H as (s3 & H3 & H).
    apply run_group_inv in H3 as (s & _ & ->).
    apply run_seq_inv in H as (s4 & H4 & H).
    guard_inv H4; destruct H as [<-|[]]; simpl.
    rewrite slice_prefix in Hws.
    eapply Forall_impl; [|exact Hws]; intros x Hx; simpl in Hx.
    now rewrite orb_false_r in Hx. }
  rewrite Forall_forall in Hall; specialize (Hall m Hm).
  unfold cand_of, span_of, cand_start.
  destruct (m_group1 m) as [[a b]|]; simpl; [exact Hall|destruct Hall].
Qed.

(** X5. Keywords are highlighted at the start of a line only: a segment in
    the keyword colour is a non-empty slice of the line that has nothing but
    blanks before it. *)
Theorem keyword_segment_leads_line (line text : str) (bold : bool) :
  In (text, CLR_KEYWORD, bold) (colorize_line' line) ->
  exists s e,
    text = slice line s e /\ s < e <= length line /\
    Forall (fun x => isspace x = true) (firstn s line).
Proof.
  intros H.
  apply coloured_segment_origin in H
    as (re & c & Hp & Hin & _ & Hok & ->); try discriminate.
  exists (cand_start c), (cand_end c); split; [reflexivity|split; [exact Hok|]].
  simpl in Hp.
  repeat (destruct Hp as [Hp|Hp]; [try discriminate|]); [| |destruct Hp];
    injection Hp as <- <-;
    eapply anchored_candidate_prefix; exact Hin.
Qed.

End SegmentOrigin.

(** ** What the filter drops, and what [add_colored_runs] appends *)

(** In a sorted list, a candidate that the filter drops starts inside a
    span that the filter keeps (or before the initial [last_end]). *)
Lemma remove_overlaps_complete (l : list cand) : forall last c,
  sorted_by_start l -> In c l ->
  In c (remove_overlaps l last) \/ cand_start c < last \/
  exists k, In k (remove_overlaps l last) /\
            cand_start k <= cand_start c /\ cand_start c < cand_end k.
Proof.
  induction l as [|x l IH]; intros last c Hs Hc; [destruct Hc|].
  destruct Hs as [Hx Hs]; simpl.
  destruct (last <=? cand_start x) eqn:E.
  - destruct Hc as [->|Hc]; [left; left; reflexivity|].
    destruct (IH (cand_end x) c Hs Hc) as [H|[H|(k & Hk & H)]].
    + left; right; exact H.
    + right; right; exists x; split; [left; reflexivity|].
      rewrite Forall_forall in Hx; specialize (Hx c Hc); lia.
    + right; right; exists k; split; [right; exact Hk|exact H].
  - apply Nat.leb_gt in E.
    destruct Hc as [->|Hc]; [right; left; exact E|].
    apply IH; assumption.
Qed.

Lemma tiling_slices_nonempty (line : str) (bounds : list (nat * nat)) :
  forall a b,
    tiling a bounds b -> b <= length line ->
    Forall (fun se => slice line (fst se) (snd se) <> []) bounds.
Proof.
  induction bounds as [|[s e] rest IH]; intros a b; simpl; [constructor|].
  intros (-> & Hlt & Hrest) Hb; constructor; [|eapply IH; eauto].
  simpl; intros Hnil.
  pose proof (tiling_le rest e b Hrest) as Hle.
  pose proof (slice_length line a e) as Hlen.
  rewrite Hnil in Hlen; simpl in Hlen; lia.
Qed.

Lemma display_line_nonempty (line : str) : display_line line <> [].
Proof.
  unfold display_line; destruct (strip line) eqn:E; [discriminate|].
  intros ->; discriminate.
Qed.

Section Runs.

Variable unicode_isdecimal : char -> bool.
Variable unicode_isalnum : char -> bool.
Variable docx_raises : docx_call -> option exn.

Local Abbreviation colorize_line' :=
  (colorize_line unicode_isdecimal unicode_isalnum).
Local Abbreviation collect_matches' :=
  (collect_matches unicode_isdecimal unicode_isalnum).
Local Abbreviation kept_spans' :=
  (kept_spans unicode_isdecimal unicode_isalnum).
Local Abbreviation display_segments' :=
  (display_segments unicode_isdecimal unicode_isalnum).
Local Abbreviation line_calls' :=
  (line_calls unicode_isdecimal unicode_isalnum).
Local Abbreviation add_colored_runs' :=
  (add_colored_runs unicode_isdecimal unicode_isalnum docx_raises).
Local Abbreviation first_raise' := (first_raise docx_raises).

(** What the loop of [add_colored_runs] comes to: the exception of the
    first call that raises, or one run per segment after the runs that were
    there. *)
Lemma first_raise_app (calls1 calls2 : list docx_call) :
  first_raise' (calls1 ++ calls2)
  = match first_raise' calls1 with
    | Some e => Some e
    | None => first_raise' calls2
    end.
Proof.
  induction calls1 as [|c calls1 IH]; simpl; [reflexivity|].
  destruct (docx_raises c); [reflexivity|exact IH].
Qed.

Lemma add_colored_run_spec (fn : string) (fs : N) (p : paragraph)
    (seg : segment) :
  add_colored_run docx_raises fn fs p seg
  = match first_raise' (segment_calls fn fs seg) with
    | Some e => inr e
    | None => inl (p ++ [segment_run fn fs seg])
    end.
Proof.
  destruct seg as [[text color] bold].
  unfold add_colored_run, segment_calls, segment_run, docx; simpl.
  destruct (docx_raises (AddRun text)); [reflexivity|simpl].
  destruct (docx_raises (SetFontName fn)); [reflexivity|simpl].
  destruct (docx_raises (SetFontSize fs)); [reflexivity|simpl].
  destruct (docx_raises (SetFontColor color)); [reflexivity|simpl].
  destruct bold; simpl; [|reflexivity].
  destruct (docx_raises SetBold); reflexivity.
Qed.

Lemma add_runs_spec (fn : string) (fs : N) (segs : list segment) :
  forall p,
    add_runs docx_raises fn fs segs p
    = match first_raise' (flat_map (segment_calls fn fs) segs) with
      | Some e => inr e
      | None => inl (p ++ map (segment_run fn fs) segs)
      end.
Proof.
  induction segs as [|seg segs IH]; intros p; simpl.
  - rewrite app_nil_r; reflexivity.
  - rewrite add_colored_run_spec, first_raise_app.
    destruct (first_raise' (segment_calls fn fs seg)); simpl; [reflexivity|].
    rewrite IH, <- app_assoc; reflexivity.
Qed.

Lemma add_colored_runs_spec (p : paragraph) (line : str) (fn : string)
    (fs : N) :
  add_colored_runs' p line fn fs
  = match first_raise' (line_calls' fn fs line) with
    | Some e => inr e
    | None => inl (p ++ map (segment_run fn fs) (display_segments' line))
    end.
Proof. apply add_runs_spec. Qed.

Lemma segment_run_text (fn : string) (fs : N) (segs : list segment) :
  map run_text (map (segment_run fn fs) segs) = map seg_text segs.
Proof.
  rewrite map_map; apply map_ext; intros [[text color] bold]; reflexivity.
Qed.

(** X6. Nothing is dropped without cause: a candidate span that is not kept
    starts inside a kept span, one that starts at or before it. *)
Theorem dropped_span_starts_in_kept_span (line : str) (c : cand) :
  In c (collect_matches' _SH_PATTERNS line) ->
  In c (kept_spans' _SH_PATTERNS line) \/
  exists k,
    In k (kept_spans' _SH_PATTERNS line) /\
    cand_start k <= cand_start c /\ cand_start c < cand_end k.
Proof.
  intros Hc; unfold kept_spans.
  destruct (remove_overlaps_complete
              (sort_by_start (collect_matches' _SH_PATTERNS line)) 0 c)
    as [H|[H|H]]; auto.
  - apply sort_by_start_sorted.
  - apply sort_by_start_in; exact Hc.
  - lia.
Qed.

Lemma colorize_line_texts_nonempty (line : str) :
  line <> [] ->
  colorize_line' line <> [] /\
  Forall (fun seg => seg_text seg <> []) (colorize_line' line).
Proof.
  intros Hne; unfold colorize_line.
  destruct (colorize_with_tiling unicode_isdecimal unicode_isalnum
              _SH_PATTERNS line SH_PATTERNS_well_formed Hne)
    as (bounds & Htil & Hmap).
  pose proof (tiling_slices_nonempty line bounds 0 (length line) Htil
                (Nat.le_refl _)) as Hall.
  split.
  - intros Hnil; rewrite Hnil in Hmap; simpl in Hmap.
    destruct bounds; [simpl in Htil; destruct line; [congruence|discriminate]
                     |discriminate].
  - apply (proj1 (Forall_map seg_text (fun t => t <> []) _)).
    rewrite Hmap.
    apply (proj2 (Forall_map (fun se => slice line (fst se) (snd se))
                             (fun t => t <> []) bounds)).
    exact Hall.
Qed.

(** X7. [add_colored_runs] ends in the exception of the first of its
    calls into the library that raises, if one does; otherwise it returns
    the paragraph with the runs it had, followed by one run for each segment
    of the line in order, with the text, colour and weight of the segment.
    There is at least one such run, and the text passed to [add_run] is
    never empty. *)
Theorem add_colored_runs_appends (p : paragraph) (line : str) (fn : string)
    (fs : N) :
  exists runs,
    runs <> [] /\
    Forall (fun r => run_text r <> []) runs /\
    map (fun r => (run_text r, run_color r, run_bold r)) runs
    = display_segments' line /\
    add_colored_runs' p line fn fs
    = match first_raise' (line_calls' fn fs line) with
      | Some e => inr e
      | None => inl (p ++ runs)
      end.
Proof.
  exists (map (segment_run fn fs) (display_segments' line)).
  destruct (colorize_line_texts_nonempty (display_line line)
              (display_line_nonempty line)) as [Hne Hall].
  fold (display_segments' line) in Hne, Hall.
  repeat split.
  - destruct (display_segments' line); [congruence|discriminate].
  - apply (proj2 (Forall_map _ _ _)).
    eapply Forall_impl; [|exact Hall].
    intros [[text color] bold] Hseg; exact Hseg.
  - rewrite map_map; erewrite map_ext; [apply map_id|].
    intros [[text color] bold]; reflexivity.
  - apply add_colored_runs_spec.
Qed.

Lemma colorize_line_nbsp :
  colorize_line' [NBSP] = [([NBSP], CLR_DEFAULT, false)].
Proof.
  vm_compute.
  destruct (unicode_isalnum 160%N), (unicode_isdecimal 160%N); reflexivity.
Qed.

(** X8. A line that is empty or made of blanks only is shown as a single
    run: one non-breaking space, in the default colour and not bold.  The
    calls made for it are [add_run] with that one character and the three
    assignments to the font; the run is there when they have returned, and
    the exception of the first of them that raises ends the function
    otherwise. *)
Theorem add_colored_runs_blank (p : paragraph) (line : str) (fn : string)
    (fs : N) :
  strip line = [] ->
  add_colored_runs' p line fn fs
  = match first_raise' [AddRun [NBSP]; SetFontName fn; SetFontSize fs;
                        SetFontColor CLR_DEFAULT] with
    | Some e => inr e
    | None => inl (p ++ [mkRun [NBSP] fn fs CLR_DEFAULT false])
    end.
Proof.
  intros Hblank; rewrite add_colored_runs_spec.
  unfold line_calls, display_segments, display_line.
  rewrite Hblank, colorize_line_nbsp; reflexivity.
Qed.

End Runs.

(** * Code blocks: [add_code_block] and [add_code_to_cell] *)

(** ** The string operations they use *)

(** [re.sub(pattern, '', text)]: the text without the spans that
    [finditer] reports. *)
Fixpoint remove_spans (ms : list rmatch) (text : str) (pos : nat) : str :=
  match ms with
  | [] => skipn pos text
  | m :: rest => slice text pos (m_start m) ++ remove_spans rest text (m_end m)
  end.

Fixpoint starts_with (old s : str) : bool :=
  match old, s with
  | [], _ => true
  | _ :: _, [] => false
  | a :: old', b :: s' => (a =? b)%N && starts_with old' s'
  end.

(** The scan of [str.replace] for a non-empty [old]: [skip] counts the
    characters of an occurrence still to be passed over. *)
Fixpoint replace_go (old new s : str) (skip : nat) : str :=
  match s with
  | [] => []
  | c :: s' =>
      match skip with
      | S k => replace_go old new s' k
      | 0 =>
          if starts_with old s
          then new ++ replace_go old new s' (length old - 1)
          else c :: replace_go old new s' 0
      end
  end.

(** [s.replace(old, new)] *)
Definition str_replace (s old new : str) : str :=
  match old with
  | [] => new ++ flat_map (fun c => c :: new) s
  | _ :: _ => replace_go old new s 0
  end.

(** [s.split('\n')] *)
Fixpoint split_lines (s : str) : list str :=
  match s with
  | [] => [[]]
  | c :: s' =>
      if (c =? 10)%N then [] :: split_lines s'
      else
        match split_lines s' with
        | l :: ls => (c :: l) :: ls
        | [] => [[c]]
        end
  end.

(** ['\n'.join(lines)] *)
Fixpoint join_lines (lines : list str) : str :=
  match lines with
  | [] => []
  | [l] => l
  | l :: ls => l ++ 10%N :: join_lines ls
  end.

(** The class [[^>]] on code points (the last one is U+10FFFF). *)
Definition not_gt : cset := [IRange 0%N 61%N; IRange 63%N 0x10FFFF%N].

(** The tag pattern of [add_code_block], an opening angle, one or more
    characters other than a closing angle, a closing angle. *)
Definition re_tag : regex := seqs [lit "<"; plus not_gt; lit ">"].

Definition ZWSP : char := 0x200B%N.
Definition LBRACKET : char := chr_of "[".
Definition EM_DASH : char := 0x2014%N.

(** ** Paragraphs, cells and the document *)

(** [Pt(n)] in EMU for a whole number of points, and [Pt(n/10)]. *)
Definition Pt (n : N) : N := (n * 12700)%N.
Definition Pt_tenths (n : N) : N := (n * 1270)%N.

(** A paragraph with the attributes the script sets: its style, the
    spacing before and after it, its line spacing (a multiple [m] of single
    spacing is kept as [240 m]), the fills of the shadings appended to its
    properties, and its runs.  [None] is an attribute left unset. *)
Record para := mkPara {
  p_style : option string;
  p_space_before : option N;
  p_space_after : option N;
  p_line_spacing : option N;
  p_shading : list string;
  p_runs : paragraph
}.

(** A table cell: its paragraphs and the fills of its shadings. *)
Record cell := mkCell { cell_paras : list para; cell_shading : list string }.

(** The body of the document, in order. *)
Inductive block :=
| BlockPara (p : para)
| BlockTable (rows : list (list cell)).

Definition document := list block.

(** [doc.add_paragraph(style=...)], before anything is set on it, and
    [paragraph.clear()]. *)
Definition new_para (style : option string) : para :=
  mkPara style None None None [] [].

Definition clear_para (p : para) : para :=
  mkPara (p_style p) (p_space_before p) (p_space_after p) (p_line_spacing p)
         (p_shading p) [].

(** The text of a paragraph: the texts passed to [add_run] for its runs,
    one after the other. *)
Definition para_text (p : para) : str := concat (map run_text (p_runs p)).

Section CodeBlocks.

Variable unicode_isdecimal : char -> bool.
Variable unicode_isalnum : char -> bool.
Variable docx_raises : docx_call -> option exn.

(** [re.sub(r'<[^>]+>', '', text)] *)
Definition strip_tags (text : str) : str :=
  remove_spans
    (finditer unicode_isdecimal unicode_isalnum
              (re_compile "<[^>]+>" re_tag false) text)
    text 0.

(** [clean] in [add_code_block]: tags out, entities decoded, brackets
    escaped, blanks stripped at both ends. *)
Definition clean_code (text : str) : str :=
  let clean := strip_tags text in
  let clean := str_replace clean (codes "&lt;") (codes "<") in
  let clean := str_replace clean (codes "&gt;") (codes ">") in
  let clean := str_replace clean (codes "&amp;") (codes "&") in
  let clean := str_replace clean (codes "&harr;") (codes "<->") in
  let clean := str_replace clean (codes "&mdash;") [EM_DASH] in
  let clean := str_replace clean (codes "&rarr;") (codes "->") in
  let clean := str_replace clean (codes "&larr;") (codes "<-") in
  let clean := str_replace clean [LBRACKET] [LBRACKET; ZWSP] in
  strip clean.

(** One turn of the loop of [add_code_block]: the paragraph made for line
    [i] of [n]. *)
Definition code_paragraph (n i : nat) (line : str) : para + exn :=
  let p := new_para (Some "CodeBlock"%string) in
  let before := if i =? 0 then Pt 4 else Pt 0 in
  let after := if i =? n - 1 then Pt 4 else Pt 0 in
  runs <- add_colored_runs unicode_isdecimal unicode_isalnum docx_raises
            (p_runs p) line "Consolas" (Pt_tenths 85) ;;
  inl (mkPara (p_style p) (Some before) (Some after) (p_line_spacing p)
              (p_shading p ++ ["F4F5F7"%string]) runs).

(** The loop of [add_code_block] from line [i] on: the document and
    [first_p], given as the place of that paragraph in the document. *)
Fixpoint code_block_loop (n i : nat) (lines : list str) (doc : document)
    (first_p : option nat) : (document * option nat) + exn :=
  match lines with
  | [] => inl (doc, first_p)
  | line :: rest =>
      let first_p' := if i =? 0 then Some (length doc) else first_p in
      p <- code_paragraph n i line ;;
      code_block_loop n (S i) rest (doc ++ [BlockPara p]) first_p'
  end.

(** [add_code_block(text)]: the document afterwards and the value
    returned, or the exception that ended the call. *)
Definition add_code_block (doc : document) (text : str)
  : (document * option nat) + exn :=
  let lines := split_lines (clean_code text) in
  code_block_loop (length lines) 0 lines doc None.

(** The calls that [add_code_block] makes to fill its runs when none of
    them raises, in order. *)
Definition code_block_calls (text : str) : list docx_call :=
  flat_map (line_calls unicode_isdecimal unicode_isalnum
                       "Consolas" (Pt_tenths 85))
           (split_lines (clean_code text)).

(** One turn of the loop of [add_code_to_cell] on the paragraph it took. *)
Definition cell_paragraph (p : para) (line : str) (font_size : N) : para + exn :=
  runs <- add_colored_runs unicode_isdecimal unicode_isalnum docx_raises
            (p_runs p) line "Consolas" font_size ;;
  inl (mkPara (p_style p) (Some (Pt 0)) (Some (Pt 0)) (Some 240%N) (p_shading p)
              runs).

(** The loop of [add_code_to_cell] from line [i] on; [cell.paragraphs[0]]
    raises IndexError on a cell without paragraphs. *)
Fixpoint cell_loop (i : nat) (lines : list str) (font_size : N)
    (paras : list para) : list para + exn :=
  match lines with
  | [] => inl paras
  | line :: rest =>
      if i =? 0 then
        match paras with
        | [] => inr IndexError
        | p :: ps =>
            p' <- cell_paragraph p line font_size ;;
            cell_loop (S i) rest font_size (p' :: ps)
        end
      else
        p' <- cell_paragraph (new_para None) line font_size ;;
        cell_loop (S i) rest font_size (paras ++ [p'])
  end.

(** [add_code_to_cell(cell, text, font_size)] *)
Definition add_code_to_cell (c : cell) (text : str) (font_size : N)
  : cell + exn :=
  let text := str_replace text [LBRACKET] [LBRACKET; ZWSP] in
  let cleared := map clear_para (cell_paras c) in
  let lines := split_lines (strip text) in
  paras <- cell_loop 0 lines font_size cleared ;;
  inl (mkCell paras (cell_shading c)).

(** The calls that [add_code_to_cell] makes to fill its runs when none of
    them raises, in order. *)
Definition cell_calls (text : str) (font_size : N) : list docx_call :=
  flat_map (line_calls unicode_isdecimal unicode_isalnum "Consolas" font_size)
           (split_lines (strip (str_replace text [LBRACKET] [LBRACKET; ZWSP]))).

End CodeBlocks.

(** ** Lines *)

Lemma split_lines_cons (s : str) : exists l ls, split_lines s = l :: ls.
Proof.
  induction s as [|c s (l & ls & IH)]; simpl; [eauto|].
  destruct (c =? 10)%N; [eauto|rewrite IH; eauto].
Qed.

Lemma join_split_lines (s : str) : join_lines (split_lines s) = s.
Proof.
  induction s as [|c s IH]; [reflexivity|]; simpl.
  destruct (split_lines_cons s) as (l & ls & E); rewrite E in *.
  destruct (c =? 10)%N eqn:Ec.
  - apply N.eqb_eq in Ec; subst c.
    change (join_lines ([] :: l :: ls)) with (10%N :: join_lines (l :: ls)).
    now rewrite IH.
  - destruct ls as [|l0 ls].
    + simpl in *; now rewrite IH.
    + change (join_lines ((c :: l) :: l0 :: ls))
        with (c :: join_lines (l :: l0 :: ls)).
      now rewrite IH.
Qed.

Lemma split_lines_no_newline (s : str) :
  Forall (fun l => ~ In 10%N l) (split_lines s).
Proof.
  induction s as [|c s IH]; simpl; [repeat constructor; auto|].
  destruct (c =? 10)%N eqn:Ec; [constructor; auto|].
  destruct (split_lines_cons s) as (l & ls & E); rewrite E in *.
  inversion IH; subst; constructor; [|assumption].
  intros [H|H]; [subst c; discriminate|auto].
Qed.

(** ** Escaped brackets *)

(** Every opening bracket of [s] has a zero-width space right after it. *)
Fixpoint escaped (s : str) : Prop :=
  match s with
  | [] => True
  | c :: s' => (c = LBRACKET -> exists rest, s' = ZWSP :: rest) /\ escaped s'
  end.

Lemma replace_go_single (a : char) (new : str) (c : char) (s : str) :
  replace_go [a] new (c :: s) 0
  = if (a =? c)%N then new ++ replace_go [a] new s 0
    else c :: replace_go [a] new s 0.
Proof. simpl; now rewrite andb_true_r. Qed.

Lemma replace_bracket (s : str) :
  str_replace s [LBRACKET] [LBRACKET; ZWSP]
  = flat_map (fun c => if (c =? LBRACKET)%N then [LBRACKET; ZWSP] else [c]) s.
Proof.
  unfold str_replace; induction s as [|c s IH]; [reflexivity|].
  rewrite replace_go_single, N.eqb_sym.
  change (flat_map ?f (c :: s)) with (f c ++ flat_map f s); cbv beta.
  rewrite <- IH; destruct (c =? LBRACKET)%N; reflexivity.
Qed.

Lemma replace_bracket_escaped (s : str) :
  escaped (str_replace s [LBRACKET] [LBRACKET; ZWSP]).
Proof.
  rewrite replace_bracket; induction s as [|c s IH]; [exact I|].
  change (flat_map ?f (c :: s)) with (f c ++ flat_map f s); cbv beta.
  destruct (c =? LBRACKET)%N eqn:Ec; cbn [app escaped].
  - split; [eauto|split; [intros E; discriminate E|exact IH]].
  - split; [|exact IH].
    intros ->; rewrite N.eqb_refl in Ec; discriminate.
Qed.

Lemma lstrip_spec (l : str) :
  exists ws, l = ws ++ lstrip l /\ Forall (fun c => isspace c = true) ws.
Proof.
  induction l as [|c l (ws & IH & Hws)]; simpl; [exists []; auto|].
  destruct (isspace c) eqn:Ec; [|exists []; auto].
  exists (c :: ws); split; [simpl; congruence|constructor; auto].
Qed.

Lemma rstrip_spec (l : str) :
  exists ws, l = rstrip l ++ ws /\ Forall (fun c => isspace c = true) ws.
Proof.
  unfold rstrip; destruct (lstrip_spec (rev l)) as (ws & E & Hws).
  exists (rev ws); split.
  - rewrite <- rev_app_distr, <- E; symmetry; apply rev_involutive.
  - apply Forall_rev; exact Hws.
Qed.

Lemma escaped_suffix (ws l : str) : escaped (ws ++ l) -> escaped l.
Proof. induction ws as [|c ws IH]; simpl; [auto|intros [_ H]; auto]. Qed.

Lemma escaped_prefix (l ws : str) :
  Forall (fun c => isspace c = true) ws -> escaped (l ++ ws) -> escaped l.
Proof.
  intros Hws; induction l as [|c l IH]; simpl; [auto|].
  intros [Hc H]; split; [|auto].
  intros E; destruct (Hc E) as (rest & Hrest).
  destruct l as [|x l]; simpl in Hrest.
  - subst ws; inversion Hws; discriminate.
  - injection Hrest as -> _; eauto.
Qed.

Lemma strip_escaped (l : str) : escaped l -> escaped (strip l).
Proof.
  intros H; unfold strip.
  destruct (lstrip_spec l) as (ws & E & _).
  rewrite E in H; apply escaped_suffix in H.
  destruct (rstrip_spec (lstrip l)) as (ws' & E' & Hws').
  rewrite E' in H; eapply escaped_prefix; eauto.
Qed.

Lemma split_lines_escaped (s : str) :
  escaped s -> Forall escaped (split_lines s).
Proof.
  induction s as [|c s IH]; simpl; [repeat constructor|].
  intros [Hc Hs]; specialize (IH Hs).
  destruct (c =? 10)%N; [constructor; [exact I|exact IH]|].
  destruct (split_lines_cons s) as (l & ls & E); rewrite E in *.
  inversion IH; subst; constructor; [|assumption].
  split; [|assumption].
  intros ->; destruct (Hc eq_refl) as (rest & ->).
  destruct (split_lines_cons rest) as (l' & ls' & E').
  change (split_lines (ZWSP :: rest))
    with (match split_lines rest with
          | l0 :: ls0 => (ZWSP :: l0) :: ls0
          | [] => [[ZWSP]]
          end) in E.
  rewrite E' in E; injection E as <- _; eauto.
Qed.

Lemma display_line_escaped (l : str) : escaped l -> escaped (display_line l).
Proof.
  unfold display_line; destruct (strip l); [|auto].
  intros _; simpl; split; [discriminate|exact I].
Qed.

(** ** Text without markup *)

Lemma in_firstn_in {A : Type} (x : A) (l : list A) : forall n,
  In x (firstn n l) -> In x l.
Proof.
  induction l as [|y l IH]; intros [|n]; simpl; try tauto.
  intros [H|H]; [left; exact H|right; eapply IH; exact H].
Qed.

Lemma in_skipn_in {A : Type} (x : A) (l : list A) : forall n,
  In x (skipn n l) -> In x l.
Proof.
  induction l as [|y l IH]; intros [|n]; simpl; try tauto.
  intros H; right; eapply IH; exact H.
Qed.

Lemma in_slice (line : str) (a b : nat) (x : char) :
  In x (slice line a b) -> In x line.
Proof.
  unfold slice; intros H.
  apply (in_skipn_in x line a), (in_firstn_in x _ (b - a)); exact H.
Qed.

Lemma replace_go_absent (a : char) (old new s : str) :
  ~ In a s -> replace_go (a :: old) new s 0 = s.
Proof.
  induction s as [|c s IH]; [reflexivity|]; intros Hn.
  simpl replace_go; simpl starts_with.
  destruct (a =? c)%N eqn:E.
  - apply N.eqb_eq in E; subst c; destruct Hn; left; reflexivity.
  - simpl; rewrite IH; [reflexivity|].
    intros H; apply Hn; right; exact H.
Qed.

(** ** Properties of [add_code_block] and [add_code_to_cell] *)

Lemma map_seq_const {A : Type} (f : nat -> A) (a : A) (i n : nat) :
  (forall j, i <= j < i + n -> f j = a) -> map f (seq i n) = repeat a n.
Proof.
  revert i; induction n as [|n IH]; intros i Hf; simpl; [reflexivity|].
  rewrite Hf by lia; f_equal; apply IH; intros j Hj; apply Hf; lia.
Qed.

Lemma str_replace_absent (a : char) (old new s : str) :
  ~ In a s -> str_replace s (a :: old) new = s.
Proof. apply replace_go_absent. Qed.

Section CodeBlockFacts.

Variable unicode_isdecimal : char -> bool.
Variable unicode_isalnum : char -> bool.
Variable docx_raises : docx_call -> option exn.

Local Abbreviation display_segments' :=
  (display_segments unicode_isdecimal unicode_isalnum).
Local Abbreviation line_calls' :=
  (line_calls unicode_isdecimal unicode_isalnum).
Local Abbreviation add_colored_runs' :=
  (add_colored_runs unicode_isdecimal unicode_isalnum docx_raises).
Local Abbreviation first_raise' := (first_raise docx_raises).
Local Abbreviation clean_code' := (clean_code unicode_isdecimal unicode_isalnum).
Local Abbreviation strip_tags' := (strip_tags unicode_isdecimal unicode_isalnum).
Local Abbreviation code_paragraph' :=
  (code_paragraph unicode_isdecimal unicode_isalnum docx_raises).
Local Abbreviation cell_paragraph' :=
  (cell_paragraph unicode_isdecimal unicode_isalnum docx_raises).
Local Abbreviation code_block_calls' :=
  (code_block_calls unicode_isdecimal unicode_isalnum).
Local Abbreviation cell_calls' :=
  (cell_calls unicode_isdecimal unicode_isalnum).
Local Abbreviation add_code_block' :=
  (add_code_block unicode_isdecimal unicode_isalnum docx_raises).
Local Abbreviation add_code_to_cell' :=
  (add_code_to_cell unicode_isdecimal unicode_isalnum docx_raises).

(** The runs of a line, once every call for them has returned. *)
Definition line_runs (fn : string) (fs : N) (line : str) : paragraph :=
  map (segment_run fn fs) (display_segments' line).

(** The paragraph that [add_code_block] makes for line [i] of [n], and the
    paragraphs it makes from line [i] on. *)
Definition code_para (n i : nat) (line : str) : para :=
  mkPara (Some "CodeBlock"%string)
         (Some (if i =? 0 then Pt 4 else Pt 0))
         (Some (if i =? n - 1 then Pt 4 else Pt 0))
         None ["F4F5F7"%string]
         (line_runs "Consolas" (Pt_tenths 85) line).

Fixpoint code_paragraphs (n i : nat) (lines : list str) : list para :=
  match lines with
  | [] => []
  | line :: rest => code_para n i line :: code_paragraphs n (S i) rest
  end.

(** The paragraph that [add_code_to_cell] leaves for a line. *)
Definition cell_para (p : para) (line : str) (fs : N) : para :=
  mkPara (p_style p) (Some (Pt 0)) (Some (Pt 0)) (Some 240%N) (p_shading p)
         (p_runs p ++ line_runs "Consolas" fs line).

Lemma code_paragraph_spec (n i : nat) (line : str) :
  code_paragraph' n i line
  = match first_raise' (line_calls' "Consolas" (Pt_tenths 85) line) with
    | Some e => inr e
    | None => inl (code_para n i line)
    end.
Proof.
  unfold code_paragraph; rewrite add_colored_runs_spec.
  destruct (first_raise' _); reflexivity.
Qed.

Lemma cell_paragraph_spec (p : para) (line : str) (fs : N) :
  cell_paragraph' p line fs
  = match first_raise' (line_calls' "Consolas" fs line) with
    | Some e => inr e
    | None => inl (cell_para p line fs)
    end.
Proof.
  unfold cell_paragraph; rewrite add_colored_runs_spec.
  destruct (first_raise' _); reflexivity.
Qed.

Lemma code_block_loop_spec (n : nat) (lines : list str) :
  forall i doc first_p,
    code_block_loop unicode_isdecimal unicode_isalnum docx_raises
                    n i lines doc first_p
    = match first_raise'
              (flat_map (line_calls' "Consolas" (Pt_tenths 85)) lines) with
      | Some e => inr e
      | None =>
          inl (doc ++ map BlockPara (code_paragraphs n i lines),
               match lines with
               | [] => first_p
               | _ :: _ => if i =? 0 then Some (length doc) else first_p
               end)
      end.
Proof.
  induction lines as [|line rest IH]; intros i doc first_p; simpl.
  - now rewrite app_nil_r.
  - rewrite code_paragraph_spec, first_raise_app.
    destruct (first_raise' (line_calls' _ _ line)); simpl; [reflexivity|].
    rewrite IH.
    destruct (first_raise' _); [reflexivity|].
    rewrite <- app_assoc; simpl; do 2 f_equal.
    destruct rest; reflexivity.
Qed.

(** The texts passed for the runs of a line spell the line shown. *)
Lemma line_runs_text (line : str) (fn : string) (fs : N) :
  concat (map run_text (line_runs fn fs line)) = display_line line.
Proof.
  unfold line_runs; rewrite segment_run_text.
  apply (colorize_with_concat unicode_isdecimal unicode_isalnum _SH_PATTERNS),
    SH_PATTERNS_well_formed.
Qed.

Lemma line_runs_nonempty (line : str) (fn : string) (fs : N) :
  line_runs fn fs line <> [].
Proof.
  intros H.
  pose proof (line_runs_text line fn fs) as Ht; rewrite H in Ht; simpl in Ht.
  symmetry in Ht; exact (display_line_nonempty line Ht).
Qed.

Lemma code_paragraphs_length (n : nat) (lines : list str) : forall i,
  length (code_paragraphs n i lines) = length lines.
Proof. induction lines; intros i; simpl; auto. Qed.

Lemma code_paragraphs_text (n : nat) (lines : list str) : forall i,
  map para_text (code_paragraphs n i lines) = map display_line lines.
Proof.
  induction lines as [|line rest IH]; intros i; simpl; [reflexivity|].
  rewrite IH; f_equal; apply line_runs_text.
Qed.

Lemma code_paragraphs_spacing (n : nat) (lines : list str) : forall i,
  map p_space_before (code_paragraphs n i lines)
  = map (fun j => Some (if j =? 0 then Pt 4 else Pt 0)) (seq i (length lines))
  /\
  map p_space_after (code_paragraphs n i lines)
  = map (fun j => Some (if j =? n - 1 then Pt 4 else Pt 0))
        (seq i (length lines)).
Proof.
  induction lines as [|line rest IH]; intros i; simpl; [auto|].
  destruct (IH (S i)) as [-> ->]; auto.
Qed.

(** What [add_code_block] comes to: the exception of the first call that
    raises, or the paragraphs of the lines after what the document held,
    the first of them being returned. *)
Lemma add_code_block_spec (doc : document) (text : str) :
  add_code_block' doc text
  = match first_raise' (code_block_calls' text) with
    | Some e => inr e
    | None =>
        inl (doc ++ map BlockPara
                      (code_paragraphs
                         (length (split_lines (clean_code' text))) 0
                         (split_lines (clean_code' text))),
             Some (length doc))
    end.
Proof.
  unfold add_code_block, code_block_calls; rewrite code_block_loop_spec.
  destruct (first_raise' _); [reflexivity|].
  destruct (split_lines_cons (clean_code' text)) as (l & ls & ->); reflexivity.
Qed.

(** X9. [add_code_block] ends in the exception of the first call that
    raises while the runs are filled, if one does.  Otherwise it appends one
    paragraph for each line of the cleaned text and nothing else, at least
    one even when the text is empty, and returns the first of them (never
    [None]).  The paragraphs are in the style CodeBlock with the light
    shading, each has runs, and the texts passed to [add_run] for each of
    them spell its line, a blank line being given as one non-breaking
    space. *)
Theorem add_code_block_paragraphs (doc : document) (text : str) :
  exists paras,
    add_code_block' doc text
    = match first_raise' (code_block_calls' text) with
      | Some e => inr e
      | None => inl (doc ++ map BlockPara paras, Some (length doc))
      end /\
    paras <> [] /\
    map para_text paras = map display_line (split_lines (clean_code' text)) /\
    join_lines (split_lines (clean_code' text)) = clean_code' text /\
    Forall (fun p => p_style p = Some "CodeBlock"%string /\
                     p_shading p = ["F4F5F7"%string] /\ p_runs p <> [])
           paras.
Proof.
  exists (code_paragraphs (length (split_lines (clean_code' text))) 0
                          (split_lines (clean_code' text))).
  split; [apply add_code_block_spec|].
  destruct (split_lines_cons (clean_code' text)) as (l & ls & E).
  split; [rewrite E; discriminate|].
  split; [apply code_paragraphs_text|].
  split; [apply join_split_lines|].
  generalize (length (split_lines (clean_code' text))) 0.
  generalize (split_lines (clean_code' text)); clear.
  intros lines; induction lines as [|line rest IH]; intros n i; simpl;
    constructor; auto.
  simpl; repeat split; apply line_runs_nonempty.
Qed.

(** X10. In a code block the first paragraph has 4 points before it and the
    last one 4 points after it; every other spacing between the paragraphs
    of the block is 0, so that the block reads as one.  This is the block
    that [add_code_block] appends whenever it returns; it ends in an
    exception only when a call that fills a run raises. *)
Theorem add_code_block_spacing (doc : document) (text : str) :
  exists paras,
    add_code_block' doc text
    = match first_raise' (code_block_calls' text) with
      | Some e => inr e
      | None => inl (doc ++ map BlockPara paras, Some (length doc))
      end /\
    map p_space_before paras
    = Some (Pt 4) :: repeat (Some (Pt 0)) (length paras - 1) /\
    map p_space_after paras
    = repeat (Some (Pt 0)) (length paras - 1) ++ [Some (Pt 4)].
Proof.
  exists (code_paragraphs (length (split_lines (clean_code' text))) 0
                          (split_lines (clean_code' text))).
  split; [apply add_code_block_spec|].
  rewrite code_paragraphs_length.
  destruct (code_paragraphs_spacing
              (length (split_lines (clean_code' text)))
              (split_lines (clean_code' text)) 0) as [-> ->].
  destruct (split_lines_cons (clean_code' text)) as (l & ls & ->).
  cbn [length]; replace (S (length ls) - 1) with (length ls) by lia; split.
  - simpl; f_equal; apply map_seq_const; intros j Hj.
    destruct j; [lia|reflexivity].
  - rewrite seq_S, map_app; simpl.
    rewrite Nat.eqb_refl; f_equal.
    apply map_seq_const; intros j Hj.
    destruct (Nat.eqb_spec j (length ls)); [lia|reflexivity].
Qed.

(** X11. Brackets are escaped in what a code block is given: in the text of
    every paragraph that [add_code_block] appends, each opening square
    bracket has a zero-width space right after it.  This is the block that
    [add_code_block] appends whenever it returns; it ends in an exception
    only when a call that fills a run raises. *)
Theorem add_code_block_escapes_brackets (doc : document) (text : str) :
  exists paras,
    add_code_block' doc text
    = match first_raise' (code_block_calls' text) with
      | Some e => inr e
      | None => inl (doc ++ map BlockPara paras, Some (length doc))
      end /\
    Forall (fun p => escaped (para_text p)) paras.
Proof.
  exists (code_paragraphs (length (split_lines (clean_code' text))) 0
                          (split_lines (clean_code' text))).
  split; [apply add_code_block_spec|].
  apply (proj1 (Forall_map para_text escaped _)).
  rewrite code_paragraphs_text.
  apply (proj2 (Forall_map display_line escaped _)).
  eapply Forall_impl; [intros l; apply display_line_escaped|].
  apply split_lines_escaped; unfold clean_code.
  apply strip_escaped, replace_bracket_escaped.
Qed.

Lemma strip_tags_plain (text : str) :
  ~ In (chr_of "<") text -> strip_tags' text = text.
Proof.
  intros Hn; unfold strip_tags.
  pose proof (finditer_Forall unicode_isdecimal unicode_isalnum text
                (re_compile "<[^>]+>" re_tag false) (fun _ _ => False)) as Hall.
  destruct (finditer _ _ _ _) as [|m ms]; [reflexivity|exfalso].
  assert (Hf : Forall (fun _ : rmatch => False) (m :: ms)).
  { apply Hall; clear Hall; cbn [re_ast re_ignorecase].
    intros p st _ H; unfold re_tag, seqs in H; simpl fold_right in H.
    apply run_seq_inv in H as (s1 & H1 & _).
    apply run_lit in H1 as (H1 & _); simpl m_pos in H1.
    apply Hn, (in_slice text p (m_pos s1)); rewrite H1; left; reflexivity. }
  inversion Hf; assumption.
Qed.

(** X12. Text without markup goes through unchanged: when the text has no
    opening angle, no ampersand and no opening square bracket, the cleaned
    text of [add_code_block] is the text stripped of the blanks at its
    ends. *)
Theorem clean_code_plain (text : str) :
  ~ In (chr_of "<") text -> ~ In (chr_of "&") text -> ~ In LBRACKET text ->
  clean_code' text = strip text.
Proof.
  intros Hlt Hamp Hbr; unfold clean_code.
  rewrite strip_tags_plain by exact Hlt.
  change (codes "&lt;") with (chr_of "&" :: codes "lt;").
  change (codes "&gt;") with (chr_of "&" :: codes "gt;").
  change (codes "&amp;") with (chr_of "&" :: codes "amp;").
  change (codes "&harr;") with (chr_of "&" :: codes "harr;").
  change (codes "&mdash;") with (chr_of "&" :: codes "mdash;").
  change (codes "&rarr;") with (chr_of "&" :: codes "rarr;").
  change (codes "&larr;") with (chr_of "&" :: codes "larr;").
  cbv zeta.
  repeat rewrite (str_replace_absent (chr_of "&") _ _ text Hamp).
  rewrite (str_replace_absent LBRACKET _ _ text Hbr).
  reflexivity.
Qed.

Lemma cell_loop_rest (fs : N) (lines : list str) : forall i paras,
  i <> 0 ->
  cell_loop unicode_isdecimal unicode_isalnum docx_raises i lines fs paras
  = match first_raise' (flat_map (line_calls' "Consolas" fs) lines) with
    | Some e => inr e
    | None =>
        inl (paras ++ map (fun l => cell_para (new_para None) l fs) lines)
    end.
Proof.
  induction lines as [|line rest IH]; intros i paras Hi; simpl.
  - now rewrite app_nil_r.
  - destruct (Nat.eqb_spec i 0); [congruence|].
    rewrite cell_paragraph_spec, first_raise_app.
    destruct (first_raise' (line_calls' _ _ line)); simpl; [reflexivity|].
    rewrite IH by discriminate.
    destruct (first_raise' _); [reflexivity|].
    now rewrite <- app_assoc.
Qed.

(** X13. [add_code_to_cell] raises IndexError on a cell that has no
    paragraph.  On a cell with paragraphs it ends in the exception of the
    first call that raises while the runs are filled, if one does;
    otherwise it keeps the shading of the cell, puts the first line in the
    first paragraph, empties the other paragraphs the cell had and appends
    one paragraph for each further line.  The texts passed to [add_run] for
    the first paragraph and for each appended one spell the lines of the
    stripped text with its brackets escaped, in order, a blank line being
    given as one non-breaking space. *)
Theorem add_code_to_cell_paragraphs (c : cell) (text : str) (fs : N) :
  match cell_paras c with
  | [] => add_code_to_cell' c text fs = inr IndexError
  | p0 :: ps =>
      exists first more,
        add_code_to_cell' c text fs
        = match first_raise' (cell_calls' text fs) with
          | Some e => inr e
          | None =>
              inl (mkCell (first :: map clear_para ps ++ more) (cell_shading c))
          end /\
        Forall (fun p => p_runs p = []) (map clear_para ps) /\
        p_style first = p_style p0 /\ p_shading first = p_shading p0 /\
        map para_text (first :: more)
        = map display_line
              (split_lines
                 (strip (str_replace text [LBRACKET] [LBRACKET; ZWSP]))) /\
        Forall (fun p => escaped (para_text p)) (first :: more)
  end.
Proof.
  unfold add_code_to_cell, cell_calls.
  destruct (split_lines_cons
              (strip (str_replace text [LBRACKET] [LBRACKET; ZWSP])))
    as (l & ls & E).
  pose proof (split_lines_escaped _
                (strip_escaped _ (replace_bracket_escaped text))) as Hesc.
  rewrite E in *.
  destruct (cell_paras c) as [|p0 ps]; [reflexivity|].
  exists (cell_para (clear_para p0) l fs),
         (map (fun l0 => cell_para (new_para None) l0 fs) ls).
  split.
  { simpl map; simpl cell_loop; simpl flat_map.
    rewrite cell_paragraph_spec, first_raise_app.
    destruct (first_raise' (line_calls' _ _ l)); simpl; [reflexivity|].
    rewrite cell_loop_rest by discriminate.
    destruct (first_raise' _); reflexivity. }
  split; [apply Forall_forall; intros p Hp;
          apply in_map_iff in Hp as (q & <- & _); reflexivity|].
  split; [reflexivity|split; [reflexivity|]].
  assert (Htexts : map para_text
                     (cell_para (clear_para p0) l fs
                      :: map (fun l0 => cell_para (new_para None) l0 fs) ls)
                   = map display_line (l :: ls)).
  { simpl; f_equal; [apply line_runs_text|].
    rewrite map_map; apply map_ext; intros l0; apply line_runs_text. }
  split; [exact Htexts|].
  apply (proj1 (Forall_map para_text escaped _)); rewrite Htexts.
  apply (proj2 (Forall_map display_line escaped _)).
  eapply Forall_impl; [intros l0; apply display_line_escaped|exact Hesc].
Qed.

End CodeBlockFacts.

(** * More on the segments *)

(** No two segments next to each other are both in the default colour. *)
Fixpoint no_two_defaults (l : list segment) : Prop :=
  match l with
  | a :: (b :: _) as tl =>
      ~ (snd (fst a) = CLR_DEFAULT /\ snd (fst b) = CLR_DEFAULT) /\
      no_two_defaults tl
  | _ => True
  end.

Lemma no_two_defaults_cons (a : segment) (l : list segment) :
  snd (fst a) <> CLR_DEFAULT -> no_two_defaults l -> no_two_defaults (a :: l).
Proof. destruct l; simpl; tauto. Qed.

Lemma build_segments_no_two_defaults (line : str) (filtered : list cand) :
  Forall (fun c => snd (fst c) <> CLR_DEFAULT) filtered ->
  forall pos, no_two_defaults (build_segments line filtered pos).
Proof.
  induction 1 as [|[[[s e] color] bold] rest Hc _ IH]; intros pos; simpl.
  - destruct (pos <? length line); exact I.
  - simpl in Hc.
    assert (Hrest : no_two_defaults
                      ((slice line s e, color, bold)
                       :: build_segments line rest e)).
    { apply no_two_defaults_cons; [exact Hc|apply IH]. }
    destruct (pos <? s); [|exact Hrest].
    simpl; split; [|exact Hrest].
    simpl; tauto.
Qed.

(** The first character that is not a blank. *)
Fixpoint first_nonblank (line : str) : option char :=
  match line with
  | [] => None
  | c :: rest => if isspace c then first_nonblank rest else Some c
  end.

Lemma first_nonblank_lstrip (line : str) :
  first_nonblank line = hd_error (lstrip line).
Proof.
  induction line as [|c rest IH]; simpl; [reflexivity|].
  destruct (isspace c); [exact IH|reflexivity].
Qed.

Lemma lstrip_head_nonblank (line : str) (c : char) (rest : str) :
  lstrip line = c :: rest -> isspace c = false.
Proof.
  induction line as [|x l IH]; simpl; [discriminate|].
  destruct (isspace x) eqn:E; [exact IH|intros [= <- _]; exact E].
Qed.

(** The stripped line starts with the first character that is not a
    blank. *)
Lemma strip_head (line : str) : hd_error (strip line) = first_nonblank line.
Proof.
  rewrite first_nonblank_lstrip; unfold strip.
  destruct (lstrip line) as [|c rest] eqn:E; [reflexivity|].
  pose proof (lstrip_head_nonblank line c rest E) as Hc.
  unfold rstrip; simpl rev.
  destruct (lstrip_snoc (rev rest) c Hc) as (l' & ->).
  rewrite rev_app_distr; reflexivity.
Qed.

Lemma startswith_hd (l : str) (c : char) :
  startswith l c = true <-> hd_error l = Some c.
Proof.
  destruct l as [|x l]; simpl; [split; discriminate|].
  rewrite N.eqb_eq; split; [intros ->; reflexivity|intros [= ->]; reflexivity].
Qed.

Section MoreSegments.

Variable unicode_isdecimal : char -> bool.
Variable unicode_isalnum : char -> bool.

Local Abbreviation colorize_line' :=
  (colorize_line unicode_isdecimal unicode_isalnum).
Local Abbreviation pattern_matches' :=
  (pattern_matches unicode_isdecimal unicode_isalnum).
Local Abbreviation at_boundary' := (at_boundary unicode_isalnum).

Lemma run_wordb_inv (ic : bool) (line : str) (st st' : mstate) :
  In st' (run unicode_isdecimal unicode_isalnum ic line WordB st) ->
  st' = st /\ at_boundary' line (m_pos st) = true.
Proof.
  simpl; destruct (at_boundary' line (m_pos st)); [|intros []].
  intros [<-|[]]; auto.
Qed.

(** The candidates of a pattern that has a word boundary on each side of
    its group start and end on a word boundary. *)
Lemma bounded_candidate (src : string) (ic : bool) (g : regex) (line : str)
    (color : RGBColor) (bold : bool) (c : cand) :
  In c (pattern_matches'
          line (re_compile src (seqs [WordB; Group g; WordB]) ic, color, bold)) ->
  at_boundary' line (cand_start c) = true /\
  at_boundary' line (cand_end c) = true.
Proof.
  intros Hin; unfold pattern_matches in Hin; cbv beta iota in Hin.
  apply in_map_iff in Hin as (m & <- & Hm).
  assert (Hall : Forall
                   (fun m =>
                      match m_group1 m with
                      | Some (a, b) =>
                          at_boundary' line a = true /\
                          at_boundary' line b = true
                      | None => False
                      end)
                   (finditer unicode_isdecimal unicode_isalnum
                      (re_compile src (seqs [WordB; Group g; WordB]) ic) line)).
  { apply (finditer_Forall unicode_isdecimal unicode_isalnum line
             (re_compile src (seqs [WordB; Group g; WordB]) ic)
             (fun _ st =>
                match m_grp st with
                | Some (a, b) =>
                    at_boundary' line a = true /\ at_boundary' line b = true
                | None => False
                end)).
    intros p st _ H; cbn [re_ast re_ignorecase] in H.
    unfold seqs in H; simpl fold_right in H.
    apply run_seq_inv in H as (s1 & H1 & H).
    apply run_wordb_inv in H1 as [-> Hb1]; simpl in Hb1.
    apply run_seq_inv in H as (s2 & H2 & H).
    apply run_group_inv in H2 as (s & _ & ->).
    apply run_seq_inv in H as (s3 & H3 & H).
    apply run_wordb_inv in H3 as [-> Hb2]; simpl in Hb2.
    destruct H as [<-|[]]; simpl; auto. }
  rewrite Forall_forall in Hall; specialize (Hall m Hm).
  unfold cand_of, span_of, cand_start, cand_end.
  destruct (m_group1 m) as [[a b]|]; simpl; [exact Hall|destruct Hall].
Qed.

(** X14. Addresses, status words, VNI numbers and interface names are
    highlighted as whole words only: a segment in one of their colours is a
    non-empty slice of the line that starts and ends on a word boundary. *)
Theorem word_segments_are_whole_words (line text : str) (color : RGBColor)
    (bold : bool) :
  In (text, color, bold) (colorize_line' line) ->
  In color [CLR_IP; CLR_MAC; CLR_GREEN; CLR_RED; CLR_VNI; CLR_IFACE] ->
  exists s e,
    text = slice line s e /\ s < e <= length line /\
    at_boundary' line s = true /\ at_boundary' line e = true.
Proof.
  intros H Hcol.
  assert (Hnc : color <> CLR_COMMENT /\ color <> CLR_DEFAULT).
  { simpl in Hcol; split; intros ->; intuition discriminate. }
  destruct Hnc as [Hnc Hnd].
  apply coloured_segment_origin in H
    as (re & c & Hp & Hin & _ & Hok & ->); [|exact Hnc|exact Hnd].
  exists (cand_start c), (cand_end c); split; [reflexivity|split; [exact Hok|]].
  simpl in Hp, Hcol.
  repeat (destruct Hp as [Hp|Hp];
          [injection Hp as <- <- <-;
           first [eapply bounded_candidate; exact Hin
                 |exfalso; intuition discriminate]|]).
  destruct Hp.
Qed.

(** X15. Which lines are comments: [colorize_line] returns the whole line
    as one comment segment exactly when the first character of the line
    that is not a blank is [#] or [!]. *)
Theorem comment_iff_first_nonblank (line : str) :
  colorize_line' line = [(line, CLR_COMMENT, false)] <->
  (first_nonblank line = Some (chr_of "#") \/
   first_nonblank line = Some (chr_of "!")).
Proof.
  rewrite <- strip_head, <- !startswith_hd, <- !orb_true_iff.
  fold (is_comment_line line); split.
  - intros H; destruct (is_comment_line line) eqn:Hc; [reflexivity|exfalso].
    assert (Hin : In (line, CLR_COMMENT, false) (colorize_line' line))
      by (rewrite H; left; reflexivity).
    apply segment_origin in Hin as [[Hd _]|Hin]; [discriminate| |exact Hc].
    destruct Hin as (re & c & Hp & Hin & _).
    simpl in Hp.
    repeat (destruct Hp as [Hp|Hp]; [try discriminate|]); [|destruct Hp].
    injection Hp as <-; simpl in Hin.
    rewrite comment_pattern_silent in Hin by exact Hc; destruct Hin.
  - intros Hc; unfold colorize_line, colorize_with; rewrite Hc; reflexivity.
Qed.

(** X16. The default segments are the whole gaps between the highlighted
    spans: no two segments next to each other are both in the default
    colour. *)
Theorem default_segments_are_maximal (line : str) :
  no_two_defaults (colorize_line' line).
Proof.
  unfold colorize_line, colorize_with.
  destruct (is_comment_line line); [exact I|].
  cbv zeta.
  assert (H : no_two_defaults
                (build_segments line
                   (remove_overlaps
                      (sort_by_start
                         (collect_matches unicode_isdecimal unicode_isalnum
                                          _SH_PATTERNS line)) 0) 0)).
  { apply build_segments_no_two_defaults.
    apply remove_overlaps_Forall, sort_by_start_Forall.
    apply Forall_forall; intros c Hc.
    unfold collect_matches in Hc; apply in_flat_map in Hc as (p & Hp & Hc).
    destruct p as [[re color] bold]; simpl in Hc.
    apply in_map_iff in Hc as (m & <- & _); unfold cand_of; simpl.
    simpl in Hp.
    repeat (destruct Hp as [Hp|Hp];
            [injection Hp as _ <- _; discriminate|]).
    destruct Hp. }
  destruct (build_segments _ _ _); [exact I|exact H].
Qed.

End MoreSegments.

(** * More on the tail of the script *)

Section TailFacts.

Variable base_name : string.
Variable doc_save : string -> option exn.
Variable getsize : string -> N + exn.

Local Abbreviation path_of' := (path_of base_name).
Local Abbreviation tail := (save_and_report base_name doc_save getsize).

(** X17. Whatever the file system does, the tail of the script calls
    [doc.save] on the first [k] candidates in order, for some [k] from 1 to
    3, and prints only after the last of these calls; [output_path] is the
    last candidate tried; when anything is printed, the first line names
    that candidate as saved; and the tail ends without an exception exactly
    when it has printed its two lines. *)
Theorem tail_trace_shape :
  exists k msgs,
    1 <= k <= 3 /\
    trace (fst tail)
    = map Save (map path_of' (firstn k suffixes)) ++ map Print msgs /\
    output_path (fst tail) = Some (path_of' (nth (k - 1) suffixes EmptyString)) /\
    (msgs = [] \/
     exists more,
       msgs = ("Word document saved: "
               ++ path_of' (nth (k - 1) suffixes EmptyString))%string :: more) /\
    (snd tail = None <-> length msgs = 2).
Proof.
  assert (Hrep : forall (path : string) (saves : list event),
             exists msgs,
               trace (fst (report getsize (mkTail (Some path) saves)))
               = saves ++ map Print msgs /\
               output_path (fst (report getsize (mkTail (Some path) saves)))
               = Some path /\
               (msgs = [] \/
                exists more,
                  msgs = ("Word document saved: " ++ path)%string :: more) /\
               (snd (report getsize (mkTail (Some path) saves)) = None
                <-> length msgs = 2)).
  { intros path saves; unfold report; cbn [output_path trace].
    destruct (getsize path) as [n|e]; cbn [fst snd trace output_path].
    - eexists [_; _]; split; [rewrite <- app_assoc; reflexivity|].
      split; [reflexivity|split; [right; eauto|split; intros _; reflexivity]].
    - eexists [_]; split; [reflexivity|].
      split; [reflexivity
             |split; [right; eauto|split; intros Hx; discriminate Hx]]. }
  assert (Hraise : forall (k : nat) (e : exn),
             1 <= k <= 3 ->
             exists k' msgs,
               1 <= k' <= 3 /\
               map Save (map path_of' (firstn k suffixes))
               = map Save (map path_of' (firstn k' suffixes)) ++ map Print msgs /\
               Some (path_of' (nth (k - 1) suffixes EmptyString))
               = Some (path_of' (nth (k' - 1) suffixes EmptyString)) /\
               (msgs = [] \/
                exists more,
                  msgs = ("Word document saved: "
                          ++ path_of' (nth (k' - 1) suffixes EmptyString))%string
                         :: more) /\
               (Some e = None <-> length msgs = 2)).
  { intros k e Hk; exists k, []; split; [exact Hk|].
    split; [now rewrite app_nil_r|].
    split; [reflexivity|split; [left; reflexivity|]].
    split; intros Hx; discriminate Hx. }
  unfold save_and_report, suffixes; cbn [save_loop trace app].
  destruct (doc_save (path_of' "_v3")) as [[|n1]|].
  - destruct (doc_save (path_of' "_v3a")) as [[|n2]|].
    + destruct (doc_save (path_of' "_v3b")) as [[|n3]|].
      * destruct (Hrep (path_of' "_v3b")
                       [Save (path_of' "_v3"); Save (path_of' "_v3a");
                        Save (path_of' "_v3b")]) as (msgs & H).
        exists 3, msgs; split; [lia|exact H].
      * apply (Hraise 3); lia.
      * destruct (Hrep (path_of' "_v3b")
                       [Save (path_of' "_v3"); Save (path_of' "_v3a");
                        Save (path_of' "_v3b")]) as (msgs & H).
        exists 3, msgs; split; [lia|exact H].
    + apply (Hraise 2); lia.
    + destruct (Hrep (path_of' "_v3a")
                     [Save (path_of' "_v3"); Save (path_of' "_v3a")])
        as (msgs & H).
      exists 2, msgs; split; [lia|exact H].
  - apply (Hraise 1); lia.
  - destruct (Hrep (path_of' "_v3") [Save (path_of' "_v3")]) as (msgs & H).
    exists 1, msgs; split; [lia|exact H].
Qed.

End TailFacts.

(** * The further statements with hypotheses, at concrete inputs *)

(** X1 on a comment line. *)
Lemma comment_colour_is_whole_line_witness :
  In (codes "# show ip route", CLR_COMMENT, false)
     (colorize_line ascii_only ascii_only (codes "# show ip route")) /\
  is_comment_line (codes "# show ip route") = true.
Proof.
  assert (H : In (codes "# show ip route", CLR_COMMENT, false)
                 (colorize_line ascii_only ascii_only (codes "# show ip route")))
    by (vm_compute; left; reflexivity).
  split; [exact H|].
  exact (proj1 (comment_colour_is_whole_line ascii_only ascii_only _ _ _ H)).
Defined.

(** X2 on the prompt of a command line. *)
Lemma weight_follows_colour_witness :
  In (codes "sw1# ", CLR_PROMPT, true)
     (colorize_line ascii_only ascii_only (codes "sw1# show ip ospf neighbor")) /\
  (true = true <-> In CLR_PROMPT [CLR_PROMPT; CLR_GREEN; CLR_RED; CLR_KEYWORD]).
Proof.
  assert (H : In (codes "sw1# ", CLR_PROMPT, true)
                 (colorize_line ascii_only ascii_only
                                (codes "sw1# show ip ospf neighbor")))
    by (vm_compute; left; reflexivity).
  split; [exact H|].
  exact (weight_follows_colour ascii_only ascii_only _ _ _ _ H).
Defined.

(** X3 on a line of a MAC table. *)
Lemma mac_segment_shape_witness :
  In (codes "aa:bb:cc:00:24:00", CLR_MAC, false)
     (colorize_line ascii_only ascii_only (codes "aa:bb:cc:00:24:00 CA 1151")) /\
  (length (codes "aa:bb:cc:00:24:00") = 17 \/
   length (codes "aa:bb:cc:00:24:00") = 14).
Proof.
  assert (H : In (codes "aa:bb:cc:00:24:00", CLR_MAC, false)
                 (colorize_line ascii_only ascii_only
                                (codes "aa:bb:cc:00:24:00 CA 1151")))
    by (vm_compute; left; reflexivity).
  split; [exact H|].
  exact (proj1 (mac_segment_shape ascii_only ascii_only _ _ _ H)).
Defined.

(** X4 on a line of a neighbour table. *)
Lemma ip_segment_shape_witness :
  In (codes "12.12.12.1", CLR_IP, false)
     (colorize_line ascii_only ascii_only (codes "12.12.12.1 FULL 1.1.1.3")) /\
  7 <= length (codes "12.12.12.1") <= 18.
Proof.
  assert (H : In (codes "12.12.12.1", CLR_IP, false)
                 (colorize_line ascii_only ascii_only
                                (codes "12.12.12.1 FULL 1.1.1.3")))
    by (vm_compute; left; reflexivity).
  split; [exact H|].
  exact (proj1 (ip_segment_shape ascii_only ascii_only _ _ _ H)).
Defined.

(** X5 on an indented configuration line. *)
Lemma keyword_segment_leads_line_witness :
  In (codes "interface", CLR_KEYWORD, true)
     (colorize_line ascii_only ascii_only (codes "  interface Gi1/0/1")) /\
  exists s e,
    codes "interface" = slice (codes "  interface Gi1/0/1") s e /\
    s < e <= length (codes "  interface Gi1/0/1") /\
    Forall (fun x => isspace x = true) (firstn s (codes "  interface Gi1/0/1")).
Proof.
  assert (H : In (codes "interface", CLR_KEYWORD, true)
                 (colorize_line ascii_only ascii_only
                                (codes "  interface Gi1/0/1")))
    by (vm_compute; right; left; reflexivity).
  split; [exact H|].
  exact (keyword_segment_leads_line ascii_only ascii_only _ _ _ H).
Defined.

(** X6 on the address inside an interface name. *)
Lemma dropped_span_starts_in_kept_span_witness :
  In (5, 13, CLR_IP, false)
     (collect_matches ascii_only ascii_only _SH_PATTERNS (codes "swp1.10.0.0.1")) /\
  (In (5, 13, CLR_IP, false)
      (kept_spans ascii_only ascii_only _SH_PATTERNS (codes "swp1.10.0.0.1")) \/
   exists k,
     In k (kept_spans ascii_only ascii_only _SH_PATTERNS (codes "swp1.10.0.0.1")) /\
     cand_start k <= 5 /\ 5 < cand_end k).
Proof.
  assert (H : In (5, 13, CLR_IP, false)
                 (collect_matches ascii_only ascii_only _SH_PATTERNS
                                  (codes "swp1.10.0.0.1")))
    by (vm_compute; left; reflexivity).
  split; [exact H|].
  exact (dropped_span_starts_in_kept_span ascii_only ascii_only _ _ H).
Defined.

(** X8 on a line of three blanks. *)
Lemma add_colored_runs_blank_witness :
  strip (codes "   ") = [] /\
  add_colored_runs ascii_only ascii_only docx_returns [] (codes "   ")
                   "Consolas" (Pt_tenths 85)
  = inl [mkRun [NBSP] "Consolas" (Pt_tenths 85) CLR_DEFAULT false].
Proof.
  split; [reflexivity|].
  exact (add_colored_runs_blank ascii_only ascii_only docx_returns []
                                (codes "   ") "Consolas" (Pt_tenths 85)
                                eq_refl).
Defined.

(** A library that raises ValueError on a run text holding a control
    character below U+0020 other than a tab, a newline or a carriage
    return, as python-docx does, and lets every other call return. *)
Definition ValueError : exn := OtherError "ValueError".

Definition docx_refuses_controls (c : docx_call) : option exn :=
  match c with
  | AddRun text =>
      if forallb (fun ch => (32 <=? ch) || (ch =? 9) || (ch =? 10)
                            || (ch =? 13))%N text
      then None else Some ValueError
  | _ => None
  end.

(** With it, a line that ends in a vertical tab is refused at its second
    segment, and [add_colored_runs] ends in that exception; a line that
    ends in a carriage return goes through, the carriage return being
    passed on in the text of the last run. *)
Example add_colored_runs_refused :
  add_colored_runs ascii_only ascii_only docx_refuses_controls []
                   (codes "up" ++ [11%N]) "Consolas" (Pt_tenths 85)
  = inr ValueError /\
  add_colored_runs ascii_only ascii_only docx_refuses_controls []
                   (codes "UP" ++ [13%N]) "Consolas" (Pt_tenths 85)
  = inl [mkRun (codes "UP") "Consolas" (Pt_tenths 85) CLR_GREEN true;
         mkRun [13%N] "Consolas" (Pt_tenths 85) CLR_DEFAULT false].
Proof. split; vm_compute; reflexivity. Qed.

(** X12 on a command between blanks. *)
Lemma clean_code_plain_witness :
  clean_code ascii_only ascii_only (codes "  show ip route  ")
  = codes "show ip route".
Proof.
  refine (eq_trans
            (clean_code_plain ascii_only ascii_only
                              (codes "  show ip route  ") _ _ _)
            _).
  - vm_compute; intuition discriminate.
  - vm_compute; intuition discriminate.
  - vm_compute; intuition discriminate.
  - reflexivity.
Defined.

(** X14 on the status word of a neighbour table. *)
Lemma word_segments_are_whole_words_witness :
  In (codes "FULL", CLR_GREEN, true)
     (colorize_line ascii_only ascii_only (codes "12.12.12.1 FULL 1.1.1.3")) /\
  exists s e,
    codes "FULL" = slice (codes "12.12.12.1 FULL 1.1.1.3") s e /\
    s < e <= length (codes "12.12.12.1 FULL 1.1.1.3") /\
    at_boundary ascii_only (codes "12.12.12.1 FULL 1.1.1.3") s = true /\
    at_boundary ascii_only (codes "12.12.12.1 FULL 1.1.1.3") e = true.
Proof.
  assert (H : In (codes "FULL", CLR_GREEN, true)
                 (colorize_line ascii_only ascii_only
                                (codes "12.12.12.1 FULL 1.1.1.3")))
    by (vm_compute; right; right; left; reflexivity).
  split; [exact H|].
  refine (word_segments_are_whole_words ascii_only ascii_only _ _ _ _ H _).
  simpl; auto.
Defined.
